(** * maccelerator: model building, state selection and run layout

    A shallow embedding of [maccelerator/model.py] and
    [maccelerator/param.py].  Python values are rendered as follows:

    - an exception is its class name ([Py.exn]); a call that may raise
      returns a [Py.result];
    - a counts matrix ([msm.rawcounts_]) is its list of rows over [Z];
    - a numpy index array is a [list nat], and [np.argsort] is any
      sort that meets the contract [Np.ArgSort];
    - the file system seen by [os.mkdir] is the finite set of the
      directories that exist. *)

From Stdlib Require Import ZArith Lia.
From stdpp Require Import base tactics option list sorting strings pretty gmap.

Open Scope Z_scope.
Open Scope nat_scope.

(** ** Python prelude *)
Module Py.

(** An exception, identified by the name of its class. *)
Inductive exn : Type := Raise (cls : string).

Inductive result (A : Type) : Type :=
| Ok (a : A)
| Err (e : exn).
Arguments Ok {A} a.
Arguments Err {A} e.

Definition bind {A B} (r : result A) (k : A → result B) : result B :=
  match r with
  | Ok a => k a
  | Err e => Err e
  end.

Definition AttributeError : exn := Raise "AttributeError".
Definition IndexError : exn := Raise "IndexError".
Definition TypeError : exn := Raise "TypeError".
Definition OSError : exn := Raise "OSError".
Definition NotImplementedError : exn := Raise "NotImplementedError".

(** [xs[:n]] with Python's reading of a negative bound. *)
Definition slice_to {A} (xs : list A) (n : Z) : list A :=
  if (n <? 0)%Z then take (length xs - Z.to_nat (- n)) xs
  else take (Z.to_nat n) xs.

(** [for x in xs: ys.append(f(x))], stopping at the first exception. *)
Fixpoint mapM {A B} (f : A → result B) (xs : list A) : result (list B) :=
  match xs with
  | [] => Ok []
  | x :: xs' =>
      bind (f x) (λ y, bind (mapM f xs') (λ ys, Ok (y :: ys)))
  end.

End Py.

#[export] Instance result_ret : MRet Py.result := @Py.Ok.
#[export] Instance result_bind : MBind Py.result := λ A B k r, Py.bind r k.

(** ** numpy's [argsort]

    [np.argsort(v)] with the default [kind='quicksort'] does not name
    one algorithm: numpy picks the routine by element type and
    processor (a vectorised sort where the processor has one, the
    scalar indirect quicksort otherwise), and the order it leaves
    among equal values differs from one routine to the other.  The
    code is therefore modelled against what every routine provides,
    the class [ArgSort] at the end of this module.

    The module first gives three sorts of the index array [0 .. n-1]
    that meet it.  The scalar quicksort ([aquicksort] of numpy's
    [npysort]) splits a segment longer than its cut-off around the
    median of its first, middle and last entry and sorts a shorter one
    by insertion; the C routine keeps the pending segments on an
    explicit stack, here each side of the pivot is sorted by a
    recursive call, which visits the same segments.  Values are
    compared with [<] only, as in the C routine. *)
Module Np.

Section argsort.
Variable v : list Z.
(** The cut-off of the quicksort, a compile-time constant of numpy. *)
Variable SMALL_QUICKSORT : nat.

Definition key (i : nat) : Z := v !!! i.

(** [INTP_SWAP(a[i], a[j])] *)
Definition swap (a : list nat) (i j : nat) : list nat :=
  <[j := a !!! i]> (<[i := a !!! j]> a).

(** Insertion of [vi] into the sorted segment to its left, kept in
    reverse: entries are shifted right while [vp < v[*pk]]. *)
Fixpoint shift_in (vi : nat) (rl : list nat) : list nat :=
  match rl with
  | [] => [vi]
  | k :: rl' =>
      if (key vi <? key k)%Z then k :: shift_in vi rl' else vi :: rl
  end.

Definition insertion (s : list nat) : list nat :=
  reverse (foldl (λ rl vi, shift_in vi rl) [] s).

(** The guarded swap of the pivot selection: [a[i]] and [a[j]] change
    places when [v[a[i]] < v[a[j]]]. *)
Definition swap_if_lt (a : list nat) (i j : nat) : list nat :=
  if (key (a !!! i) <? key (a !!! j))%Z then swap a i j else a.

(** The three guarded swaps that order [a[pl]], [a[pm]], [a[pr]]. *)
Definition med3 (a : list nat) (pl pm pr : nat) : list nat :=
  let a := swap_if_lt a pm pl in
  let a := swap_if_lt a pr pm in
  swap_if_lt a pm pl.

(** [do ++pi; while (v[*pi] < vp)], entered with [pi] already advanced. *)
Fixpoint scan_up (a : list nat) (vp : Z) (fuel pi : nat) : nat :=
  match fuel with
  | 0 => pi
  | S f => if (key (a !!! pi) <? vp)%Z then scan_up a vp f (S pi) else pi
  end.

(** [do --pj; while (vp < v[*pj])], entered with [pj] already lowered. *)
Fixpoint scan_down (a : list nat) (vp : Z) (pj : nat) : nat :=
  match pj with
  | 0 => 0
  | S j => if (vp <? key (a !!! pj))%Z then scan_down a vp j else pj
  end.

(** The inner [for (;;)] of the partition: returns the array and the
    final [pi]. *)
Fixpoint sweep (fuel : nat) (a : list nat) (vp : Z) (pi pj : nat)
  : list nat * nat :=
  match fuel with
  | 0 => (a, pi)
  | S f =>
      let pi' := scan_up a vp (length a) (S pi) in
      let pj' := scan_down a vp (pj - 1) in
      if pj' <=? pi' then (a, pi')
      else sweep f (swap a pi' pj') vp pi' pj'
  end.

(** One partition of the segment [s] (so [pl = 0], [pr = len - 1]). *)
Definition partition (s : list nat) : list nat * nat :=
  let pr := length s - 1 in
  let pm := pr / 2 in
  let a := med3 s 0 pm pr in
  let vp := key (a !!! pm) in
  let a := swap a pm (pr - 1) in
  let '(a, pi) := sweep (length s) a vp 0 (pr - 1) in
  (swap a pi (pr - 1), pi).

Fixpoint aquicksort (fuel : nat) (s : list nat) : list nat :=
  match fuel with
  | 0 => s
  | S f =>
      if SMALL_QUICKSORT <? length s - 1 then
        let '(a, pi) := partition s in
        aquicksort f (take pi a) ++ take 1 (drop pi a)
          ++ aquicksort f (drop (S pi) a)
      else insertion s
  end.

End argsort.

(** The scalar quicksort on the whole index array. *)
Definition aquicksort_argsort (SMALL_QUICKSORT : nat) (v : list Z) : list nat :=
  aquicksort v SMALL_QUICKSORT (S (length v)) (seq 0 (length v)).

(** Two sorts by insertion alone: one leaves equal values in ascending
    index order, the other in descending index order. *)
Definition argsort_ascending (v : list Z) : list nat :=
  insertion v (seq 0 (length v)).

Definition argsort_descending (v : list Z) : list nat :=
  insertion v (reverse (seq 0 (length v))).

(** [np.argsort] as the code may rely on it: the result is a
    permutation of the indices of [v], along which the values of [v]
    never decrease.  Nothing is promised about equal values. *)
Class ArgSort : Type := {
  argsort : list Z → list nat;
  argsort_permutes v : argsort v ≡ₚ seq 0 (length v);
  argsort_ascends v :
    StronglySorted (λ i j, (key v i ≤ key v j)%Z) (argsort v)
}.

End Np.

(** ** os, os.path and logging *)
Module Os.
Import Py.

Definition startswith (s pre : string) : bool :=
  String.prefix pre s.

(** [s.endswith(suf)] *)
Definition endswith (s suf : string) : bool :=
  let ls := String.length s in
  let lf := String.length suf in
  if lf <=? ls then String.eqb (String.substring (ls - lf) lf s) suf
  else false.

(** [os.path.join(a, b)] of posixpath. *)
Definition pjoin (a b : string) : string :=
  if startswith b "/" then b
  else if String.eqb a "" || endswith a "/" then a +:+ b
  else a +:+ "/" +:+ b.

(** The directories that exist, and the paths the system refuses to
    create for a reason of its own (missing parent, permissions, ...). *)
Record filesystem : Type := {
  dirs : gset string;
  refuses : string → bool
}.

(** [os.mkdir(path)]: any failure is an [OSError]. *)
Definition mkdir (path : string) (fs : filesystem) : result filesystem :=
  if decide (path ∈ dirs fs) then Err OSError
  else if refuses fs path then Err OSError
  else Ok {| dirs := {[path]} ∪ dirs fs; refuses := refuses fs |}.

Inductive log_arg : Type :=
| ArgStr (s : string)
| ArgInt (z : Z)
| ArgExn (e : exn).

Record log_record : Type := {
  levelname : string;
  msg : string;
  args : list log_arg
}.

Definition warning (fmt : string) (xs : list log_arg) (log : list log_record)
  : list log_record :=
  log ++ [{| levelname := "WARNING"; msg := fmt; args := xs |}].

End Os.

(** ** param.py *)
Module Param.
Import Py Os.

Definition TRAJ : string := "trajs".
Definition SSTATE : string := "sstates".
Definition MSMS : string := "msms".
Definition FIGS : string := "figs".

(** [figs_dir] is not set by [__init__]; it appears in
    [make_directories]. *)
Record AdaptiveParams : Type := {
  tpr : Z;
  spt : Z;
  run_id : Z;
  rundir : option string;
  traj_dir : string;
  sstate_dir : string;
  msms_dir : string;
  figs_dir : option string;
  _round_i : Z
}.

Definition __init__ (spt tpr run_id : Z) : AdaptiveParams :=
  {| tpr := tpr; spt := spt; run_id := run_id; rundir := None;
     traj_dir := ""; sstate_dir := ""; msms_dir := "";
     figs_dir := None; _round_i := (-1)%Z |}.

(** What a call leaves behind: the object, the file system, the log. *)
Record world : Type := {
  self : AdaptiveParams;
  fs : filesystem;
  log : list log_record
}.

(** The four [os.mkdir] calls of the [try] block, in order; the file
    system keeps what was created before a failure. *)
Fixpoint mkdirs (paths : list string) (fs : filesystem)
  : filesystem * option exn :=
  match paths with
  | [] => (fs, None)
  | p :: ps =>
      match mkdir p fs with
      | Ok fs' => mkdirs ps fs'
      | Err e => (fs, Some e)
      end
  end.

(** [make_directories]: [os.path.join] on a [rundir] that is still
    [None] raises before the [try] (a [TypeError] in current Python);
    inside the [try] every [OSError] is caught, logged and turned into
    [('', False)]. *)
Definition make_directories (w : world) : result (string * bool) * world :=
  match rundir (self w) with
  | None => (Err TypeError, w)
  | Some rd =>
      let p := self w in
      let p' := {| tpr := tpr p; spt := spt p; run_id := run_id p;
                   rundir := rundir p;
                   traj_dir := pjoin rd TRAJ;
                   sstate_dir := pjoin rd SSTATE;
                   msms_dir := pjoin rd MSMS;
                   figs_dir := Some (pjoin rd FIGS);
                   _round_i := _round_i p |} in
      match mkdirs [pjoin rd TRAJ; pjoin rd SSTATE; pjoin rd MSMS;
                    pjoin rd FIGS] (fs w) with
      | (fs', Some e) =>
          (Ok ("", false),
           {| self := p'; fs := fs';
              log := warning "Skipping %s (%s)" [ArgStr rd; ArgExn e] (log w) |})
      | (fs', None) =>
          (Ok (pjoin rd TRAJ, true), {| self := p'; fs := fs'; log := log w |})
      end
  end.

(** [TRAJROUND.format(round_i=i)], [SEEDROUND.format(round_i=i)] and
    [FIGROUND.format(round_i=i)] for an integer [i]. *)
Definition TRAJROUND (round_i : Z) : string := "round-" +:+ pretty round_i.
Definition SEEDROUND (round_i : Z) : string := "seed-" +:+ pretty round_i.
Definition FIGROUND (round_i : Z) : string := "plot-" +:+ pretty round_i.

(** The [seed_state_fn] property. *)
Definition seed_state_fn (p : AdaptiveParams) : string :=
  pjoin (sstate_dir p) (SEEDROUND (_round_i p + 1)).

(** The [plot_fn] property: [self.figs_dir] is an attribute only once
    [make_directories] has run. *)
Definition plot_fn (p : AdaptiveParams) : result string :=
  match figs_dir p with
  | None => Err AttributeError
  | Some d => Ok (pjoin d (FIGROUND (_round_i p)))
  end.

Section make_trajround.
(** [os.path.abspath], which depends on the working directory. *)
Variable abspath : string → string.

(** [make_trajround]: the round pointer is set first; the [os.mkdir]
    is not guarded, so its [OSError] reaches the caller. *)
Definition make_trajround (w : world) (round_i : Z) : result string * world :=
  let p := self w in
  let p' := {| tpr := tpr p; spt := spt p; run_id := run_id p;
               rundir := rundir p; traj_dir := traj_dir p;
               sstate_dir := sstate_dir p; msms_dir := msms_dir p;
               figs_dir := figs_dir p; _round_i := round_i |} in
  let trajround_dir := pjoin (traj_dir p') (TRAJROUND round_i) in
  let trajround_dir := abspath trajround_dir in
  match mkdir trajround_dir (fs w) with
  | Err e => (Err e, {| self := p'; fs := fs w; log := log w |})
  | Ok fs' => (Ok trajround_dir, {| self := p'; fs := fs'; log := log w |})
  end.
End make_trajround.

End Param.

(** ** model.py *)
Module Model.
Import Py Os.

(** [msm.rawcounts_]: row [i], column [j] holds the transitions
    observed from state [i] to state [j]. *)
Definition matrix : Type := list (list Z).

(** [np.asarray(counts.sum(axis=1)).flatten()] *)
Definition row_sums (counts : matrix) : list Z :=
  map (λ row, foldr Z.add 0%Z row) counts.

(** The estimators of the mixtape library, seen through their [fit]:
    [MiniBatchKMeans(n_clusters).fit(trajs)] yields [labels_], and
    [MarkovStateModel(lag_time).fit(seqs)] yields [rawcounts_].  Either
    call may raise. *)
Class Clusterer (frame : Type) : Type := {
  kmeans_fit : Z → list (list frame) → result (list (list nat))
}.

Class Estimator : Type := {
  msm_fit : Z → list (list nat) → result matrix
}.

(** The common interface of the modellers: the [counts] property. *)
Class Modeller (M : Type) : Type := {
  counts : M → result matrix
}.

(** [np.sum([len(traj) for traj in trajs_vec])] *)
Definition n_datapoints {frame} (trajs_vec : list (list frame)) : Z :=
  foldr Z.add 0%Z (map (λ traj, Z.of_nat (length traj)) trajs_vec).

(** [int(np.sqrt(n_datapoints / 2))]: the integer part of the square
    root of the half.  On integers that is [Z.sqrt] of the floored
    half. *)
Definition n_clusters (n : Z) : Z := Z.sqrt (n / 2).

(** [rawcounts_.tocoo()]: the cells the sparse matrix stores, row by
    row; a counts matrix stores its non-zero cells. *)
Definition tocoo (c : matrix) : list (nat * nat) :=
  mjoin (imap (λ i row,
    mjoin (imap (λ j x, if decide (x = 0%Z) then [] else [(i, j)]) row)) c).

(** [np.unique]: the distinct values in ascending order. *)
Definition unique (xs : list nat) : list nat :=
  merge_sort (≤) (remove_dups xs).

(** [xs[idx]] for an index array [idx]. *)
Definition take_at (xs : list Z) (idx : list nat) : list Z :=
  map (λ i, xs !!! i) idx.

(** *** ClusterModeller *)
Module ClusterModeller.

Record t : Type := {
  msm : option matrix;
  clusterer : option (list (list nat))
}.

Definition __init__ : t := {| msm := None; clusterer := None |}.

(** The object after the call, and the exception if one of the two
    [fit] calls raised. *)
Definition _model `{Clusterer frame, Estimator} (self : t)
    (trajs_vec : list (list frame)) (lagtime : Z) : t * result () :=
  let n := n_clusters (n_datapoints trajs_vec) in
  match kmeans_fit n trajs_vec with
  | Err e => (self, Err e)
  | Ok labels =>
      let self := {| msm := msm self; clusterer := Some labels |} in
      match msm_fit lagtime labels with
      | Err e => (self, Err e)
      | Ok c => ({| msm := Some c; clusterer := clusterer self |}, Ok ())
      end
  end.

(** [self.msm.rawcounts_], an attribute of [None] before a model is
    built. *)
#[global] Instance counts : Modeller t := {
  counts self :=
    match msm self with
    | None => Err AttributeError
    | Some c => Ok c
    end
}.

End ClusterModeller.

(** *** TMatModeller *)
Module TMatModeller.

Record t : Type := {
  msm : option matrix;
  found_states : option (list nat)
}.

Definition __init__ : t := {| msm := None; found_states := None |}.

Definition _model `{Estimator} (self : t)
    (trajs : list (list nat)) (lagtime : Z) : t * result () :=
  match msm_fit lagtime trajs with
  | Err e => (self, Err e)
  | Ok c =>
      let countscoo := tocoo c in
      let found := map fst countscoo ++ map snd countscoo in
      ({| msm := Some c; found_states := Some (unique found) |}, Ok ())
  end.

#[global] Instance counts : Modeller t := {
  counts self :=
    match msm self with
    | None => Err AttributeError
    | Some c => Ok c
    end
}.

End TMatModeller.

(** *** SortCountsAdapter *)
Module SortCountsAdapter.

Record t (M : Type) : Type := { modeller : M }.
Arguments modeller {M} _.

(** The two logging calls are left out: they do not touch the
    result. *)
Definition adapt {sorter : Np.ArgSort} `{Modeller M} (self : t M)
    (params : Param.AdaptiveParams) : result (list nat) :=
  c ← counts (modeller self);
  let found_states : option (list nat) := None in
  let n_tpr := Param.tpr params in
  let counts_per_state := row_sums c in
  let counts_per_state :=
    match found_states with
    | Some fs => take_at counts_per_state fs
    | None => counts_per_state
    end in
  let states_to_sample := Np.argsort counts_per_state in
  let states_to_sample :=
    if (n_tpr <? Z.of_nat (length states_to_sample))%Z
    then slice_to states_to_sample n_tpr
    else states_to_sample in
  mret states_to_sample.

End SortCountsAdapter.

(** *** Trajectory loading *)
Section loading.
Context {traj : Type}.
(** [os.listdir] and the loader passed in by the caller. *)
Variable listdir : string → result (list string).
Variable load_func : string → result traj.
(** [len(traj)] *)
Variable len : traj → Z.

(** ['round-%d' % cround] *)
Definition round_name (cround : nat) : string := "round-" +:+ pretty cround.

(** The list comprehension over one round directory. *)
Definition load_round (cround : nat) : result (list traj) :=
  let tdir := pjoin "trajs" (round_name cround) in
  names ← listdir tdir;
  mapM (λ s, load_func (pjoin tdir s))
       (filter (λ s, endswith s ".h5" = true) names).

(** The [for cround in range(round_i + 1)] loop, [trajs] being the
    accumulator. *)
Fixpoint load_rounds (rounds : list nat) (trajs : list traj)
  : result (list traj) :=
  match rounds with
  | [] => Ok trajs
  | cround :: rest =>
      new ← load_round cround;
      load_rounds rest (trajs ++ new)
  end.

(** [range(n)] for an integer [n]. *)
Definition range (n : Z) : list nat := seq 0 (Z.to_nat n).

Definition load_trajectories (round_i : Z) : result (Z * list traj) :=
  trajs ← load_rounds (range (round_i + 1)) [];
  match trajs with
  | [] => Err IndexError
  | t0 :: _ => Ok ((len t0 * (round_i + 1))%Z, trajs)
  end.
End loading.

(** [save_starting_states]: [save_func] is the writer passed in by
    the caller; [W] is whatever it writes to. *)
Definition save_starting_states {A W} (state_is : A) (round_i : Z)
    (save_func : string → A → W → result W) (w : W) : result W :=
  let out_fn := pjoin "sstates" ("round-" +:+ pretty (round_i + 1)%Z +:+ ".h5") in
  save_func out_fn state_is w.

(** [load_trajectories_percent]: a trajectory is the list of its
    frames; [scale traj_len] stands for [int(percent * traj_len)], a
    floating-point product. *)
Definition load_trajectories_percent {frame}
    (listdir : string → result (list string))
    (load_func : string → result (list frame))
    (scale : Z → Z) : result (Z * list (list frame)) :=
  trajs ← load_round listdir load_func 0;
  match trajs with
  | [] => Err IndexError
  | t0 :: _ =>
      let traj_len := Z.of_nat (length t0) in
      let endstep := scale traj_len in
      Ok (endstep, map (λ traj, slice_to traj endstep) trajs)
  end.

End Model.

(** ** A reference estimator

    [MarkovStateModel.fit] belongs to the mixtape library, which is not
    part of the repository; the modellers above take it as a parameter
    ([Estimator]).  The instance below is used where a statement needs
    a concrete estimator. *)
Module Reference.
Import Py Model.

(** The states are [0 .. max], [max] being the largest index seen. *)
Definition n_states (trajs : list (list nat)) : nat :=
  foldr max 0 (map S (concat trajs)).

(** The pairs [(traj[t], traj[t + lag])]. *)
Definition transitions (lag : nat) (traj : list nat) : list (nat * nat) :=
  zip traj (drop lag traj).

(** Modelled from the spec: the transition-count matrix that
    [MarkovStateModel.fit] of the mixtape library leaves in
    [rawcounts_]; the library is not part of the repository.  Entry
    [(i, j)] is the number of observed transitions from state [i] to
    state [j] at the lag time, across all trajectories. *)
Definition count_transitions (lagtime : Z) (trajs : list (list nat)) : matrix :=
  let ts := concat (map (transitions (Z.to_nat lagtime)) trajs) in
  let n := n_states trajs in
  map (λ i, map (λ j, Z.of_nat (length (filter (λ t, t = (i, j)) ts)))
                (seq 0 n))
      (seq 0 n).

Definition counting : Estimator :=
  {| msm_fit lagtime trajs := Ok (count_transitions lagtime trajs) |}.

End Reference.

(** ** Vocabulary of the statements *)

(** Cell [(i, j)] of [c] exists and is not zero. *)
Definition nonzero (c : Model.matrix) (i j : nat) : Prop :=
  ∃ row x, c !! i = Some row ∧ row !! j = Some x ∧ x ≠ 0%Z.

(** The input the specification calls insufficient: fewer than two
    frames in all, or a trajectory shorter than the lag time. *)
Definition insufficient {frame} (trajs : list (list frame)) (lagtime : Z)
  : Prop :=
  (Model.n_datapoints trajs < 2)%Z
  ∨ ∃ traj, traj ∈ trajs ∧ (Z.of_nat (length traj) < lagtime)%Z.

(** The four directories of a run. *)
Definition layout (rd : string) : list string :=
  [Os.pjoin rd Param.TRAJ; Os.pjoin rd Param.SSTATE;
   Os.pjoin rd Param.MSMS; Os.pjoin rd Param.FIGS].

(** What [os.path.join] puts in front of a relative second part. *)
Definition join_head (a : string) : string :=
  if String.eqb a "" || Os.endswith a "/" then a else a +:+ "/".

(** Orders on state indices: [kle v] compares two indices by their
    value in [v]; [lexle v] compares by value first and by index among
    equal values. *)
Definition kle (v : list Z) (i j : nat) : Prop :=
  (Np.key v i ≤ Np.key v j)%Z.

Definition lexle (v : list Z) (i j : nat) : Prop :=
  (Np.key v i < Np.key v j)%Z ∨ (Np.key v i = Np.key v j ∧ i ≤ j).

(** How the test of the shifting loop of the insertion sort places [vi]
    against an entry [k] to its left. *)
Definition placed (v : list Z) (R : relation nat) (k vi : nat) : Prop :=
  if (Np.key v vi <? Np.key v k)%Z then R vi k else R k vi.

(** ** Sample data *)

(** A model holding the given counts, as [TMatModeller._model] leaves
    it when the estimator returns them. *)
Definition tmat_with (c : Model.matrix) : Model.TMatModeller.t :=
  fst (Model.TMatModeller._model
         (H := {| Model.msm_fit _ _ := Py.Ok c |})
         Model.TMatModeller.__init__ [] 1%Z).

Definition params_with_tpr (n : Z) : Param.AdaptiveParams :=
  Param.__init__ 100%Z n 0%Z.

(** The three-state matrix of the specification's scenario. *)
Definition counts3 : Model.matrix :=
  [[5; 0; 0]; [2; 3; 0]; [0; 1; 0]]%Z.

(** Four states with the row sums [2, 3, 0, 0]: the states 2 and 3 are
    only ever entered. *)
Definition counts4 : Model.matrix :=
  [[1; 1; 0; 0]; [1; 0; 1; 1]; [0; 0; 0; 0]; [0; 0; 0; 0]]%Z.

(** One trajectory over the states 1 and 2; state 0 exists in the
    matrix but is never visited. *)
Definition tmat_121 : Model.TMatModeller.t :=
  fst (Model.TMatModeller._model (H := Reference.counting)
         Model.TMatModeller.__init__ [[1; 2; 1]] 1%Z).

(** Two round directories: the first holds a trajectory file and a
    file of another kind, the second a trajectory file. *)
Definition sample_listdir (d : string) : Py.result (list string) :=
  if String.eqb d "trajs/round-0" then Py.Ok ["a.h5"; "notes.txt"]
  else if String.eqb d "trajs/round-1" then Py.Ok ["b.h5"]
  else Py.Err Py.OSError.

Definition sample_load (fn : string) : Py.result (list nat) :=
  if String.eqb fn "trajs/round-0/a.h5" then Py.Ok [0; 1; 0]
  else Py.Ok [1; 1; 0].

Definition sample_len (traj : list nat) : Z := Z.of_nat (length traj).

(** A fresh run whose directory is [run], on a file system without
    directories that refuses nothing. *)
Definition sample_world : Param.world :=
  let p := Param.__init__ 100%Z 2%Z 0%Z in
  {| Param.self :=
       {| Param.tpr := Param.tpr p; Param.spt := Param.spt p;
          Param.run_id := Param.run_id p; Param.rundir := Some "run";
          Param.traj_dir := Param.traj_dir p;
          Param.sstate_dir := Param.sstate_dir p;
          Param.msms_dir := Param.msms_dir p;
          Param.figs_dir := Param.figs_dir p;
          Param._round_i := Param._round_i p |};
     Param.fs := {| Os.dirs := ∅; Os.refuses := λ _, false |};
     Param.log := [] |}.

(** A writer that keeps the list of the file names it was given. *)
Definition record_name {A} (fn : string) (_ : A) (names : list string)
  : Py.result (list string) :=
  Py.Ok (names ++ [fn]).

(** A clusterer that refuses fewer than one cluster and otherwise puts
    every frame into cluster 0, and an estimator that always raises. *)
Definition sample_clusterer : Model.Clusterer Z :=
  {| Model.kmeans_fit n trajs :=
       if (n <? 1)%Z then Py.Err (Py.Raise "ValueError")
       else Py.Ok (map (map (λ _, 0)) trajs) |}.

Definition failing_estimator : Model.Estimator :=
  {| Model.msm_fit _ _ := Py.Err (Py.Raise "ValueError") |}.

(** The same run started inside its own directory: [rundir] is the
    empty path. *)
Definition sample_world_here : Param.world :=
  let p := Param.self sample_world in
  {| Param.self :=
       {| Param.tpr := Param.tpr p; Param.spt := Param.spt p;
          Param.run_id := Param.run_id p; Param.rundir := Some "";
          Param.traj_dir := Param.traj_dir p;
          Param.sstate_dir := Param.sstate_dir p;
          Param.msms_dir := Param.msms_dir p;
          Param.figs_dir := Param.figs_dir p;
          Param._round_i := Param._round_i p |};
     Param.fs := Param.fs sample_world;
     Param.log := Param.log sample_world |}.

(** [os.path.abspath] of a relative path without dots when the working
    directory is [/home]. *)
Definition sample_abspath (path : string) : string := "/home/" +:+ path.

(** A loader that refuses every file whose name does not end in
    [.h5]. *)
Definition sample_load_strict (fn : string) : Py.result (list nat) :=
  if Os.endswith fn ".h5" then sample_load fn
  else Py.Err (Py.Raise "ValueError").

(** * Properties *)

(** ** The sorts of the index array *)
Section insertion_facts.
Variable v : list Z.
#[local] Abbreviation key := (Np.key v).
#[local] Abbreviation kle := (kle v).
#[local] Abbreviation lexle := (lexle v).
#[local] Abbreviation placed := (placed v).

#[global] Instance kle_trans : Transitive kle.
Proof. unfold kle. intros x y z ? ?. lia. Qed.

#[global] Instance lexle_trans : Transitive lexle.
Proof. unfold lexle. intros x y z ? ?. lia. Qed.

Lemma lexle_kle i j : lexle i j → kle i j.
Proof. unfold lexle, kle. lia. Qed.

Lemma placed_kle k vi : placed kle k vi.
Proof. unfold placed, kle. case_match; lia. Qed.

Lemma placed_lexle k vi : k < vi → placed lexle k vi.
Proof. unfold placed, lexle. case_match; lia. Qed.

Lemma shift_in_perm vi rl : Np.shift_in v vi rl ≡ₚ vi :: rl.
Proof.
  induction rl as [|k rl IH]; simpl; [done|].
  case_match; [|done].
  rewrite IH. apply Permutation_swap.
Qed.

Lemma shift_in_sorted (R : relation nat) `{!Transitive R} vi rl :
  Forall (λ k, placed R k vi) rl →
  StronglySorted (flip R) rl →
  StronglySorted (flip R) (Np.shift_in v vi rl).
Proof.
  induction rl as [|k rl IH]; simpl; intros Hp Hs.
  { repeat constructor. }
  apply Forall_cons in Hp as [Hk Hp].
  apply StronglySorted_inv in Hs as [Hs Hall].
  unfold placed in Hk. destruct (key vi <? key k)%Z.
  - constructor; [by apply IH|].
    rewrite shift_in_perm. by constructor.
  - constructor; [by constructor|].
    constructor; [done|].
    eapply Forall_impl; [exact Hall|].
    intros y Hy. unfold flip in *. by etrans.
Qed.

Lemma foldl_shift_perm acc s :
  foldl (λ rl vi, Np.shift_in v vi rl) acc s ≡ₚ s ++ acc.
Proof.
  revert acc. induction s as [|x s IH]; intros acc; simpl; [done|].
  rewrite IH, shift_in_perm. by rewrite Permutation_middle.
Qed.

Lemma foldl_shift_sorted (R : relation nat) `{!Transitive R} acc s :
  StronglySorted (flip R) acc →
  Forall (λ k, Forall (placed R k) s) acc →
  StronglySorted (placed R) s →
  StronglySorted (flip R) (foldl (λ rl vi, Np.shift_in v vi rl) acc s).
Proof.
  revert acc. induction s as [|x s IH]; intros acc Hacc Hcross Hs; simpl.
  { done. }
  apply StronglySorted_inv in Hs as [Hs Hx].
  apply IH; [| |done].
  - apply shift_in_sorted; [done| |done].
    eapply Forall_impl; [exact Hcross|].
    intros k Hk. by apply Forall_cons in Hk as [? _].
  - rewrite shift_in_perm. constructor; [done|].
    eapply Forall_impl; [exact Hcross|].
    intros k Hk. by apply Forall_cons in Hk as [_ ?].
Qed.

Lemma insertion_perm s : Np.insertion v s ≡ₚ s.
Proof.
  unfold Np.insertion. rewrite reverse_Permutation, foldl_shift_perm.
  by rewrite app_nil_r.
Qed.

Lemma StronglySorted_reverse (R : relation nat) `{!Transitive R} l :
  StronglySorted (flip R) l → StronglySorted R (reverse l).
Proof.
  intros Hs. apply Sorted_StronglySorted; [done|].
  apply StronglySorted_Sorted in Hs.
  apply (Sorted_reverse (flip R)) in Hs. exact Hs.
Qed.

Lemma insertion_sorted_gen (R : relation nat) `{!Transitive R} s :
  StronglySorted (placed R) s → StronglySorted R (Np.insertion v s).
Proof.
  intros Hs. unfold Np.insertion. apply StronglySorted_reverse; [done|].
  apply foldl_shift_sorted; [done|constructor|constructor|done].
Qed.

Lemma insertion_sorted s : StronglySorted kle (Np.insertion v s).
Proof.
  apply insertion_sorted_gen; [apply _|].
  induction s; constructor; [done|].
  apply Forall_forall. intros. apply placed_kle.
Qed.

Lemma insertion_stable n m :
  StronglySorted lexle (Np.insertion v (seq n m)).
Proof.
  apply insertion_sorted_gen; [apply _|].
  revert n. induction m as [|m IH]; intros n; simpl; constructor; [done|].
  apply Forall_forall. intros x Hx%elem_of_seq.
  apply placed_lexle. lia.
Qed.

End insertion_facts.

Section partition_facts.
Variable v : list Z.
#[local] Abbreviation key := (Np.key v).
#[local] Abbreviation kle := (kle v).

Lemma swap_length a i j : length (Np.swap a i j) = length a.
Proof. unfold Np.swap. by rewrite !length_insert. Qed.

Lemma swap_perm a i j :
  i < length a → j < length a → Np.swap a i j ≡ₚ a.
Proof.
  intros Hi Hj. unfold Np.swap.
  apply Permutation_insert_swap; by apply list_lookup_lookup_total_lt.
Qed.

Lemma swap_lookup a i j k :
  i < length a → j < length a →
  Np.swap a i j !!! k =
    if decide (k = j) then a !!! i
    else if decide (k = i) then a !!! j else a !!! k.
Proof.
  intros Hi Hj. unfold Np.swap.
  rewrite !list_lookup_total_insert, !length_insert.
  repeat case_decide; try done; lia.
Qed.

Lemma swap_if_lt_length a i j : length (Np.swap_if_lt v a i j) = length a.
Proof. unfold Np.swap_if_lt. case_match; [apply swap_length|done]. Qed.

Lemma swap_if_lt_perm a i j :
  i < length a → j < length a → Np.swap_if_lt v a i j ≡ₚ a.
Proof. intros. unfold Np.swap_if_lt. case_match; [by apply swap_perm|done]. Qed.

Lemma swap_if_lt_other a i j k :
  i < length a → j < length a → k ≠ i → k ≠ j →
  Np.swap_if_lt v a i j !!! k = a !!! k.
Proof.
  intros. unfold Np.swap_if_lt. case_match; [|done].
  rewrite swap_lookup by done. by repeat case_decide.
Qed.

Lemma swap_if_lt_max a i j :
  i < length a → j < length a →
  key (Np.swap_if_lt v a i j !!! i) = Z.max (key (a !!! i)) (key (a !!! j)).
Proof.
  intros. unfold Np.swap_if_lt.
  destruct (Z.ltb_spec (key (a !!! i)) (key (a !!! j))).
  - rewrite swap_lookup by done. repeat case_decide; subst; lia.
  - lia.
Qed.

Lemma swap_if_lt_min a i j :
  i < length a → j < length a →
  key (Np.swap_if_lt v a i j !!! j) = Z.min (key (a !!! i)) (key (a !!! j)).
Proof.
  intros. unfold Np.swap_if_lt.
  destruct (Z.ltb_spec (key (a !!! i)) (key (a !!! j))).
  - rewrite swap_lookup by done. repeat case_decide; subst; lia.
  - lia.
Qed.

Lemma med3_length a pl pm pr : length (Np.med3 v a pl pm pr) = length a.
Proof. unfold Np.med3. by rewrite !swap_if_lt_length. Qed.

Lemma med3_perm a pl pm pr :
  pl < length a → pm < length a → pr < length a →
  Np.med3 v a pl pm pr ≡ₚ a.
Proof.
  intros. unfold Np.med3.
  rewrite !swap_if_lt_perm; rewrite ?swap_if_lt_length; done.
Qed.

Lemma med3_ordered a pl pm pr :
  pl < pm → pm < pr → pr < length a →
  let a' := Np.med3 v a pl pm pr in
  (key (a' !!! pl) ≤ key (a' !!! pm))%Z ∧ (key (a' !!! pm) ≤ key (a' !!! pr))%Z.
Proof.
  intros Hlm Hmr Hr. unfold Np.med3. simpl.
  set (a1 := Np.swap_if_lt v a pm pl).
  set (a2 := Np.swap_if_lt v a1 pr pm).
  assert (length a1 = length a) as L1 by apply swap_if_lt_length.
  assert (length a2 = length a) as L2.
  { unfold a2. by rewrite swap_if_lt_length. }
  rewrite swap_if_lt_max, swap_if_lt_min by lia.
  rewrite (swap_if_lt_other a2 pm pl pr) by lia.
  unfold a2.
  rewrite swap_if_lt_max, swap_if_lt_min by lia.
  rewrite (swap_if_lt_other a1 pr pm pl) by lia.
  unfold a1.
  rewrite swap_if_lt_max, swap_if_lt_min by lia.
  rewrite (swap_if_lt_other a pm pl pr) by lia.
  lia.
Qed.

End partition_facts.

Section sweep_facts.
Variable v : list Z.
#[local] Abbreviation key := (Np.key v).

(** The upward scan stops at or before an entry that is not below the
    pivot. *)
Lemma scan_up_spec a vp fuel i0 stop :
  i0 ≤ stop → stop - i0 ≤ fuel → (vp ≤ key (a !!! stop))%Z →
  let i' := Np.scan_up v a vp fuel i0 in
  i0 ≤ i' ≤ stop ∧ (vp ≤ key (a !!! i'))%Z ∧
  ∀ k, i0 ≤ k < i' → (key (a !!! k) < vp)%Z.
Proof.
  revert i0. induction fuel as [|f IH]; intros i0 Hle Hfuel Hstop; simpl.
  { assert (i0 = stop) as -> by lia. split_and!; [lia..|done|intros; lia]. }
  destruct (Z.ltb_spec (key (a !!! i0)) vp) as [Hlt|Hge].
  - assert (i0 ≠ stop) by (intros ->; lia).
    destruct (IH (S i0)) as (Hr & Hv & Hbelow); [lia..|done|].
    split_and!; [lia..|done|].
    intros k Hk. destruct (decide (k = i0)) as [->|]; [done|].
    apply Hbelow. lia.
  - split_and!; [lia..|done|intros; lia].
Qed.

(** The downward scan stops at or after an entry that is not above the
    pivot. *)
Lemma scan_down_spec a vp j0 stop :
  stop ≤ j0 → (key (a !!! stop) ≤ vp)%Z →
  let j' := Np.scan_down v a vp j0 in
  stop ≤ j' ≤ j0 ∧ (key (a !!! j') ≤ vp)%Z ∧
  ∀ k, j' < k ≤ j0 → (vp < key (a !!! k))%Z.
Proof.
  induction j0 as [|j IH]; intros Hle Hstop; simpl.
  { assert (stop = 0) as -> by lia. split_and!; [lia..|done|intros; lia]. }
  destruct (Z.ltb_spec vp (key (a !!! S j))) as [Hlt|Hge].
  - assert (stop ≠ S j) by (intros ->; lia).
    destruct IH as (Hr & Hv & Habove); [lia|done|].
    split_and!; [lia..|done|].
    intros k Hk. destruct (decide (k = S j)) as [->|]; [done|].
    apply Habove. lia.
  - split_and!; [lia..|done|intros; lia].
Qed.

(** What holds each time the partition loop is entered: everything up
    to [pi] is at most the pivot, everything from [pj] on is at least
    the pivot, and the pivot sits at [hi]. *)
Lemma sweep_spec fuel a vp pi pj hi :
  pi < pj → pj ≤ hi → hi < length a → pj - pi ≤ fuel →
  key (a !!! hi) = vp →
  (∀ k, k ≤ pi → (key (a !!! k) ≤ vp)%Z) →
  (∀ k, pj ≤ k < length a → (vp ≤ key (a !!! k))%Z) →
  ∀ a' p, Np.sweep v fuel a vp pi pj = (a', p) →
  a' ≡ₚ a ∧ length a' = length a ∧ pi < p ≤ hi ∧
  key (a' !!! hi) = vp ∧
  (∀ k, k < p → (key (a' !!! k) ≤ vp)%Z) ∧
  (∀ k, p ≤ k < length a → (vp ≤ key (a' !!! k))%Z).
Proof.
  revert a pi pj.
  induction fuel as [|f IH]; intros a pi pj Hij Hjh Hh Hfuel Hpiv Hlo Hhi a' p;
    [lia|].
  simpl.
  destruct (scan_up_spec a vp (length a) (S pi) pj) as (Hi' & Hvi & Hbelow);
    [lia|lia|apply Hhi; lia|].
  destruct (scan_down_spec a vp (pj - 1) pi) as (Hj' & Hvj & Habove);
    [lia|apply Hlo; lia|].
  set (pi' := Np.scan_up v a vp (length a) (S pi)) in *.
  set (pj' := Np.scan_down v a vp (pj - 1)) in *.
  destruct (Nat.leb_spec pj' pi') as [Hcross|Hgo].
  - intros [= <- <-]. split_and!; [done|done|lia|lia|done| |].
    + intros k Hk. destruct (decide (k ≤ pi)); [by apply Hlo|].
      apply Z.lt_le_incl, Hbelow. lia.
    + intros k Hk. destruct (decide (k = pi')) as [->|]; [done|].
      destruct (decide (pj ≤ k)); [apply Hhi; lia|].
      apply Z.lt_le_incl, Habove. lia.
  - intros Hsw.
    apply IH in Hsw; rewrite ?swap_length; [|lia..| | |].
    + rewrite !swap_length in Hsw.
      destruct Hsw as (Hperm & Hlen & Hp & Hpiv' & Hlo' & Hhi').
      split_and!; [|lia|lia|lia|done|done|done].
      rewrite Hperm. apply swap_perm; lia.
    + rewrite swap_lookup by lia. repeat case_decide; try lia; done.
    + intros k Hk. rewrite swap_lookup by lia.
      repeat case_decide; try lia; try done.
      destruct (decide (k ≤ pi)); [by apply Hlo|].
      apply Z.lt_le_incl, Hbelow. lia.
    + intros k Hk. rewrite swap_lookup by lia.
      repeat case_decide; try lia; try done.
      destruct (decide (pj ≤ k)); [apply Hhi; lia|].
      apply Z.lt_le_incl, Habove. lia.
Qed.

(** The outcome of one partition. *)
Lemma partition_spec s a p :
  3 ≤ length s → Np.partition v s = (a, p) →
  a ≡ₚ s ∧ p < length s ∧
  (∀ k, k < p → (key (a !!! k) ≤ key (a !!! p))%Z) ∧
  (∀ k, p < k < length s → (key (a !!! p) ≤ key (a !!! k))%Z).
Proof.
  intros Hlen. unfold Np.partition.
  set (pr := length s - 1). set (pm := pr / 2).
  assert (0 < pm ∧ pm < pr) as [Hm0 Hmr].
  { unfold pm. split.
    - apply Nat.div_str_pos. lia.
    - apply Nat.div_lt; lia. }
  destruct (med3_ordered v s 0 pm pr) as [Hlm Hmr']; [lia..|].
  pose proof (med3_perm v s 0 pm pr) as Hperm0.
  pose proof (med3_length v s 0 pm pr) as Hlen0.
  set (a0 := Np.med3 v s 0 pm pr) in *.
  set (vp := key (a0 !!! pm)).
  set (a1 := Np.swap a0 pm (pr - 1)).
  destruct (Np.sweep v (length s) a1 vp 0 (pr - 1)) as [a2 q] eqn:Hsw.
  intros [= <- <-].
  assert (length a1 = length s) as Hlen1.
  { unfold a1. by rewrite swap_length. }
  apply (sweep_spec _ _ _ _ _ (pr - 1)) in Hsw; [|lia..| | |].
  - destruct Hsw as (Hperm & Hlen2 & Hq & Hpiv & Hlo & Hhi).
    assert (key (Np.swap a2 q (pr - 1) !!! q) = vp) as Hq'.
    { rewrite swap_lookup by lia. repeat case_decide; subst; try lia; done. }
    split_and!.
    + rewrite swap_perm by lia. rewrite Hperm. unfold a1.
      rewrite swap_perm by lia. apply Hperm0; lia.
    + lia.
    + intros k Hk. rewrite Hq'. rewrite swap_lookup by lia.
      repeat case_decide; try lia. by apply Hlo.
    + intros k Hk. rewrite Hq'. rewrite swap_lookup by lia.
      repeat case_decide; try lia; apply Hhi; lia.
  - unfold a1. rewrite swap_lookup by lia. repeat case_decide; try lia; done.
  - intros k Hk. assert (k = 0) as -> by lia.
    unfold a1. rewrite swap_lookup by lia.
    repeat case_decide; try lia; done.
  - intros k Hk. rewrite Hlen1 in Hk. unfold a1.
    rewrite swap_lookup by lia.
    repeat case_decide; try lia; try done.
    assert (k = pr) as -> by lia. done.
Qed.

End sweep_facts.

Section aquicksort_facts.
Variable v : list Z.
Variable small : nat.
Hypothesis small_pos : 1 ≤ small.
#[local] Abbreviation key := (Np.key v).
#[local] Abbreviation kle := (kle v).

Lemma split_at_pivot (a : list nat) p :
  p < length a →
  take 1 (drop p a) = [a !!! p] ∧
  a = take p a ++ [a !!! p] ++ drop (S p) a.
Proof.
  intros Hp.
  pose proof (list_lookup_lookup_total_lt a p Hp) as Hlk.
  assert (drop p a = a !!! p :: drop (S p) a) as Hd.
  { by apply drop_S. }
  split.
  - by rewrite Hd.
  - simpl. rewrite <- Hd. by rewrite take_drop.
Qed.

Lemma aquicksort_spec fuel s :
  length s ≤ fuel →
  Np.aquicksort v small fuel s ≡ₚ s
  ∧ StronglySorted kle (Np.aquicksort v small fuel s).
Proof.
  revert s. induction fuel as [|f IH]; intros s Hlen.
  { destruct s; [|simpl in Hlen; lia]. simpl. split; [done|constructor]. }
  simpl. destruct (Nat.ltb_spec small (length s - 1)) as [Hbig|_].
  - destruct (Np.partition v s) as [a p] eqn:Hpart.
    apply partition_spec in Hpart as (Hperm & Hp & Hlo & Hhi); [|lia].
    assert (length a = length s) as Hla by (by rewrite Hperm).
    destruct (split_at_pivot a p) as [Hmid Hsplit]; [lia|].
    rewrite Hmid.
    destruct (IH (take p a)) as [HLp HLs]; [rewrite length_take; lia|].
    destruct (IH (drop (S p) a)) as [HRp HRs]; [rewrite length_drop; lia|].
    split.
    + rewrite HLp, HRp, <- Hperm. by rewrite <- Hsplit.
    + apply StronglySorted_app_2; [|done|].
      * intros x1 x2 Hx1 Hx2. rewrite HLp in Hx1.
        apply elem_of_take in Hx1 as (i & Hi & Hip).
        apply list_lookup_total_correct in Hi as <-.
        trans (a !!! p); [by apply Hlo|].
        simpl in Hx2.
        apply elem_of_cons in Hx2 as [->|Hx2]; [unfold kle; lia|].
        rewrite HRp in Hx2.
        apply list_elem_of_lookup in Hx2 as (j & Hj).
        pose proof (lookup_lt_Some _ _ _ Hj) as Hjl.
        rewrite length_drop in Hjl. rewrite lookup_drop in Hj.
        apply list_lookup_total_correct in Hj as <-.
        apply Hhi. lia.
      * simpl. constructor; [done|].
        apply Forall_forall. intros x Hx. rewrite HRp in Hx.
        apply list_elem_of_lookup in Hx as (j & Hj).
        pose proof (lookup_lt_Some _ _ _ Hj) as Hjl.
        rewrite length_drop in Hjl. rewrite lookup_drop in Hj.
        apply list_lookup_total_correct in Hj as <-.
        apply Hhi. lia.
  - split; [apply insertion_perm|apply insertion_sorted].
Qed.

End aquicksort_facts.

(** ** The contract of [np.argsort] *)

Lemma aquicksort_argsort_perm small v :
  1 ≤ small → Np.aquicksort_argsort small v ≡ₚ seq 0 (length v).
Proof.
  intros Hsmall. unfold Np.aquicksort_argsort.
  apply aquicksort_spec; [done|]. rewrite length_seq. lia.
Qed.

Lemma aquicksort_argsort_sorted small v :
  1 ≤ small → StronglySorted (kle v) (Np.aquicksort_argsort small v).
Proof.
  intros Hsmall. unfold Np.aquicksort_argsort.
  apply aquicksort_spec; [done|]. rewrite length_seq. lia.
Qed.

Lemma argsort_ascending_perm v : Np.argsort_ascending v ≡ₚ seq 0 (length v).
Proof. apply insertion_perm. Qed.

Lemma argsort_descending_perm v : Np.argsort_descending v ≡ₚ seq 0 (length v).
Proof.
  unfold Np.argsort_descending. by rewrite insertion_perm, reverse_Permutation.
Qed.

(** The scalar quicksort, for every cut-off of at least one, and the
    two insertion sorts meet the contract. *)
Definition scalar_quicksort (small : nat) (Hsmall : 1 ≤ small) : Np.ArgSort :=
  {| Np.argsort := Np.aquicksort_argsort small;
     Np.argsort_permutes v := aquicksort_argsort_perm small v Hsmall;
     Np.argsort_ascends v := aquicksort_argsort_sorted small v Hsmall |}.

Definition ascending_ties : Np.ArgSort :=
  {| Np.argsort := Np.argsort_ascending;
     Np.argsort_permutes := argsort_ascending_perm;
     Np.argsort_ascends v := insertion_sorted v (seq 0 (length v)) |}.

Definition descending_ties : Np.ArgSort :=
  {| Np.argsort := Np.argsort_descending;
     Np.argsort_permutes := argsort_descending_perm;
     Np.argsort_ascends v := insertion_sorted v (reverse (seq 0 (length v))) |}.

(** [ascending_ties] breaks ties by ascending index. *)
Lemma argsort_ascending_stable v :
  StronglySorted (lexle v) (Np.argsort_ascending v).
Proof. apply insertion_stable. Qed.

Section argsort_facts.
Context `{Np.ArgSort}.

(** [np.argsort] returns a permutation of the indices of its argument. *)
Lemma argsort_perm v : Np.argsort v ≡ₚ seq 0 (length v).
Proof. apply Np.argsort_permutes. Qed.

(** Along the result of [np.argsort] the values never decrease. *)
Lemma argsort_sorted v : StronglySorted (kle v) (Np.argsort v).
Proof. apply Np.argsort_ascends. Qed.

Lemma argsort_length v : length (Np.argsort v) = length v.
Proof. by rewrite argsort_perm, length_seq. Qed.

Lemma argsort_elem v i : i ∈ Np.argsort v ↔ i < length v.
Proof. rewrite argsort_perm, elem_of_seq. lia. Qed.

Lemma argsort_NoDup v : NoDup (Np.argsort v).
Proof. rewrite argsort_perm. apply NoDup_seq. Qed.

(** An index whose value is below every other value comes first,
    whatever the routine. *)
Lemma argsort_head_min v i :
  i < length v →
  (∀ j, j < length v → j ≠ i → (v !!! i < v !!! j)%Z) →
  ∃ rest, Np.argsort v = i :: rest.
Proof.
  intros Hi Hmin.
  pose proof (argsort_sorted v) as Hsorted.
  pose proof (argsort_length v) as Hlen.
  pose proof (proj2 (argsort_elem v i) Hi) as Hin.
  destruct (Np.argsort v) as [|h rest] eqn:Heq.
  { simpl in Hlen. lia. }
  destruct (decide (h = i)) as [->|Hne]; [by exists rest|].
  apply StronglySorted_inv in Hsorted as [_ Hall].
  apply elem_of_cons in Hin as [->|Hin]; [done|].
  rewrite Forall_forall in Hall. specialize (Hall i Hin).
  assert (h < length v) as Hh.
  { apply argsort_elem. rewrite Heq. by left. }
  specialize (Hmin h Hh Hne).
  unfold kle, Np.key in Hall. lia.
Qed.

End argsort_facts.

(** ** SortCountsAdapter.adapt *)
Section adapt_facts.
Import Py Model Model.SortCountsAdapter.
Context {sorter : Np.ArgSort} `{Modeller M}.
Implicit Types (self : SortCountsAdapter.t M) (params : Param.AdaptiveParams).

Lemma length_row_sums (c : matrix) : length (row_sums c) = length c.
Proof. unfold row_sums. apply length_map. Qed.

(** On a built model [adapt] returns a prefix of the argsort of the row
    sums; for a count that is not negative the prefix has that length
    (or is the whole when there are fewer states). *)
Lemma adapt_prefix self params c :
  counts (modeller self) = Ok c →
  ∃ k, adapt self params = Ok (take k (Np.argsort (row_sums c)))
       ∧ ((0 ≤ Param.tpr params)%Z → k = Z.to_nat (Param.tpr params)).
Proof.
  intros Hc. unfold adapt. rewrite Hc. simpl.
  set (s := Np.argsort (row_sums c)).
  destruct (Z.ltb_spec (Param.tpr params) (Z.of_nat (length s))) as [Hlt|Hge].
  - unfold slice_to. destruct (Z.ltb_spec (Param.tpr params) 0).
    + eexists. split; [done|lia].
    + eexists. split; [done|done].
  - exists (Z.to_nat (Param.tpr params)). split; [|done].
    unfold mret, result_ret. f_equal. symmetry. apply take_ge. lia.
Qed.

(** How many states [adapt] returns: for a positive [tpr] and a counts
    matrix of [n] states, [min(tpr, n)], and every state of the matrix
    once [tpr] reaches [n]. *)
Lemma adapt_length self params c :
  counts (modeller self) = Ok c →
  (0 < Param.tpr params)%Z →
  ∃ states,
    adapt self params = Ok states
    ∧ Z.of_nat (length states)
      = Z.min (Param.tpr params) (Z.of_nat (length c))
    ∧ ((Z.of_nat (length c) ≤ Param.tpr params)%Z →
       states ≡ₚ seq 0 (length c)).
Proof.
  intros Hc Hpos.
  destruct (adapt_prefix self params c Hc) as (k & Hk & Hkt).
  rewrite Hkt in Hk by lia.
  eexists. split_and!; [exact Hk| |].
  - rewrite length_take, argsort_length, length_row_sums. lia.
  - intros Hfew. rewrite take_ge.
    + by rewrite argsort_perm, length_row_sums.
    + rewrite argsort_length, length_row_sums. lia.
Qed.

(** C10. On a built model with [n] states [adapt] returns pairwise
    distinct indices, each below [n]. *)
Theorem adapt_distinct_in_range self params c :
  counts (modeller self) = Ok c →
  ∃ states,
    adapt self params = Ok states
    ∧ NoDup states
    ∧ Forall (λ s, s < length c) states.
Proof.
  intros Hc.
  destruct (adapt_prefix self params c Hc) as (k & Hk & _).
  eexists. split_and!; [exact Hk| |].
  - eapply sublist_NoDup; [apply argsort_NoDup|apply sublist_take].
  - apply Forall_take, Forall_forall. intros s Hs.
    apply argsort_elem in Hs. by rewrite length_row_sums in Hs.
Qed.

(** For every built model the states returned are in non-decreasing
    order of their row sum. *)
Lemma adapt_sorted self params c :
  counts (modeller self) = Ok c →
  ∃ states,
    adapt self params = Ok states
    ∧ StronglySorted (kle (row_sums c)) states.
Proof.
  intros Hc.
  destruct (adapt_prefix self params c Hc) as (k & Hk & _).
  eexists. split; [exact Hk|].
  pose proof (argsort_sorted (row_sums c)) as Hs.
  rewrite <- (take_drop k (Np.argsort (row_sums c))) in Hs.
  by apply StronglySorted_app_1_l in Hs.
Qed.

End adapt_facts.

Section adapt_claims.
Import Py Model Model.SortCountsAdapter.

Lemma counts_tmat_with c : counts (tmat_with c) = Ok c.
Proof. reflexivity. Qed.

Lemma counts_tmat_121 :
  counts tmat_121 = Ok [[0; 0; 0]; [0; 0; 1]; [0; 1; 0]]%Z.
Proof. by vm_compute. Qed.

Lemma adapt_distinct_in_range_witness :
  ∃ states,
    adapt (sorter := ascending_ties)
      {| modeller := tmat_with counts3 |} (params_with_tpr 2) = Ok states
    ∧ NoDup states
    ∧ Forall (λ s, s < 3) states.
Proof.
  apply (adapt_distinct_in_range (sorter := ascending_ties)
           {| modeller := tmat_with counts3 |}
           (params_with_tpr 2) counts3); reflexivity.
Defined.

(** C2, as the code has it.  Whatever routine [np.argsort] runs, for
    every built model the states returned are in non-decreasing order
    of their row sum; and for the matrix [[5,0,0],[2,3,0],[0,1,0]] with
    [tpr = 2] the first state returned is 2, the second one of the two
    tied states 0 and 1. *)
Theorem adapt_order :
  (∀ (sorter : Np.ArgSort) M (H : Modeller M)
     (self : SortCountsAdapter.t M) params c,
     counts (modeller self) = Ok c →
     ∃ states,
       adapt self params = Ok states
       ∧ StronglySorted (kle (row_sums c)) states)
  ∧ (∀ sorter : Np.ArgSort,
       adapt {| modeller := tmat_with counts3 |} (params_with_tpr 2)
       = Ok [2; 0]
       ∨ adapt {| modeller := tmat_with counts3 |} (params_with_tpr 2)
         = Ok [2; 1]).
Proof.
  split.
  - intros sorter M H self params c Hc. by apply adapt_sorted.
  - intros sorter.
    destruct (adapt_prefix {| modeller := tmat_with counts3 |}
                (params_with_tpr 2) counts3 (counts_tmat_with counts3))
      as (k & -> & Hk).
    rewrite Hk by done.
    change (row_sums counts3) with [5; 5; 1]%Z.
    destruct (argsort_head_min [5; 5; 1]%Z 2) as [rest Hrest].
    { simpl. lia. }
    { intros [|[|[|j]]] Hj Hne; simpl in Hj; try lia; by vm_compute. }
    pose proof (argsort_perm [5; 5; 1]%Z) as Hperm.
    rewrite Hrest in Hperm. rewrite Hrest.
    assert (rest ≡ₚ [0; 1]) as Hrest2.
    { apply (Permutation_cons_inv (a := 2)). rewrite Hperm. simpl.
      by rewrite (Permutation_swap 2 1 []), (Permutation_swap 2 0 [1]). }
    symmetry in Hrest2.
    apply Permutation_length_2_inv in Hrest2 as [->| ->]; [by left|by right].
Qed.

Lemma adapt_order_witness :
  ∃ states,
    adapt (sorter := ascending_ties)
      {| modeller := tmat_with counts3 |} (params_with_tpr 2) = Ok states
    ∧ StronglySorted (kle (row_sums counts3)) states.
Proof.
  apply (proj1 adapt_order ascending_ties _ _
           {| modeller := tmat_with counts3 |}
           (params_with_tpr 2) counts3); reflexivity.
Defined.

(** C2 as the specification words it fails.  Equal counts need not
    come in ascending state index: for the row sums [2, 3, 0, 0] and
    [tpr = 2], a routine that leaves equal values in descending index
    order returns the states [3, 2]. *)
Lemma adapt_ties_not_by_index :
  ∃ states,
    adapt (sorter := descending_ties)
      {| modeller := tmat_with counts4 |} (params_with_tpr 2) = Ok states
    ∧ row_sums counts4 = [2; 3; 0; 0]%Z
    ∧ states = [3; 2]
    ∧ ¬ StronglySorted (lexle (row_sums counts4)) states.
Proof.
  exists [3; 2]. split_and!; [by vm_compute|done|done|].
  intros Hs.
  apply StronglySorted_inv in Hs as [_ Hs].
  apply Forall_cons in Hs as [Hs _].
  unfold lexle, Np.key in Hs. vm_compute in Hs.
  destruct Hs as [Hs|[_ Hs]]; [discriminate|lia].
Qed.

(** C1 at a concrete model.  [TMatModeller._model] on the trajectory
    [1, 2, 1] finds the states 1 and 2; [adapt] with [tpr = 1] returns
    state 0, which is not among them, whatever routine [np.argsort]
    runs. *)
Lemma adapt_ignores_found_states (sorter : Np.ArgSort) :
  TMatModeller.found_states tmat_121 = Some [1; 2]
  ∧ adapt {| modeller := tmat_121 |} (params_with_tpr 1) = Ok [0]
  ∧ 0 ∉ [1; 2].
Proof.
  split_and!; [by vm_compute| |].
  - destruct (adapt_prefix {| modeller := tmat_121 |} (params_with_tpr 1)
                _ counts_tmat_121) as (k & -> & Hk).
    rewrite Hk by done.
    change (row_sums _) with [0; 1; 1]%Z.
    destruct (argsort_head_min [0; 1; 1]%Z 0) as [rest ->].
    { simpl. lia. }
    { intros [|[|[|j]]] Hj Hne; simpl in Hj; try lia; by vm_compute. }
    done.
  - intros Hin. apply elem_of_cons in Hin as [|Hin]; [done|].
    apply elem_of_cons in Hin as [|Hin]; [done|].
    by apply elem_of_nil in Hin.
Qed.

(** C3 at a concrete model.  For a positive [tpr], [adapt] returns
    [min(tpr, n)] states, [n] being the number of states of the counts
    matrix and not the number of found states: on the model built from
    the trajectory [1, 2, 1], whose found states are 1 and 2, [adapt]
    with [tpr = 3] returns three states, the state 0 among them. *)
Theorem adapt_counts_unfound_candidates :
  (∀ (sorter : Np.ArgSort) M (H : Modeller M)
     (self : SortCountsAdapter.t M) params c,
     counts (modeller self) = Ok c →
     (0 < Param.tpr params)%Z →
     ∃ states,
       adapt self params = Ok states
       ∧ Z.of_nat (length states)
         = Z.min (Param.tpr params) (Z.of_nat (length c)))
  ∧ (∀ sorter : Np.ArgSort,
       TMatModeller.found_states tmat_121 = Some [1; 2]
       ∧ ∃ states,
           adapt {| modeller := tmat_121 |} (params_with_tpr 3) = Ok states
           ∧ length states = 3
           ∧ states ≡ₚ [0; 1; 2]).
Proof.
  split.
  - intros sorter M H self params c Hc Hpos.
    destruct (adapt_length self params c Hc Hpos) as (states & ? & ? & _).
    by exists states.
  - intros sorter. split; [by vm_compute|].
    destruct (adapt_length {| modeller := tmat_121 |} (params_with_tpr 3)
                _ counts_tmat_121 eq_refl) as (states & Hadapt & Hlen & Hall).
    exists states. simpl in Hlen, Hall.
    split_and!; [done|lia|]. by apply Hall.
Qed.

Lemma adapt_counts_unfound_candidates_witness :
  ∃ states,
    adapt (sorter := ascending_ties)
      {| modeller := tmat_121 |} (params_with_tpr 3) = Ok states
    ∧ Z.of_nat (length states) = Z.min 3 (Z.of_nat 3).
Proof.
  apply (proj1 adapt_counts_unfound_candidates ascending_ties _ _
           {| modeller := tmat_121 |} (params_with_tpr 3)
           [[0; 0; 0]; [0; 0; 1]; [0; 1; 0]]%Z); [by vm_compute|reflexivity].
Defined.

(** C7 as the specification words it fails: the exception raised by
    [counts] on a modeller without a model is not [NotBuiltError], and
    the one [adapt] then raises is not [ModelNotBuiltError]. *)
Lemma unbuilt_not_NotBuiltError :
  counts ClusterModeller.__init__ ≠ Err (Raise "NotBuiltError")
  ∧ counts TMatModeller.__init__ ≠ Err (Raise "NotBuiltError")
  ∧ adapt (sorter := ascending_ties)
      {| modeller := TMatModeller.__init__ |} (params_with_tpr 2)
    ≠ Err (Raise "ModelNotBuiltError").
Proof. split_and!; discriminate. Qed.

(** C7, as the code has it.  Before a model is built [counts] reads an
    attribute of [None], which raises [AttributeError], on either
    modeller; [adapt] passes on whatever [counts] raises, so it raises
    [AttributeError] too. *)
Theorem unbuilt_raises_AttributeError :
  counts ClusterModeller.__init__ = Err AttributeError
  ∧ counts TMatModeller.__init__ = Err AttributeError
  ∧ (∀ (sorter : Np.ArgSort) M (H : Modeller M)
       (self : SortCountsAdapter.t M) params e,
       counts (modeller self) = Err e → adapt self params = Err e)
  ∧ (∀ (sorter : Np.ArgSort) params,
       adapt {| modeller := ClusterModeller.__init__ |} params
       = Err AttributeError)
  ∧ (∀ (sorter : Np.ArgSort) params,
       adapt {| modeller := TMatModeller.__init__ |} params
       = Err AttributeError).
Proof.
  split_and!; try reflexivity.
  intros sorter M H self params e He. unfold adapt. by rewrite He.
Qed.

End adapt_claims.

(** ** ClusterModeller: the number of clusters *)
Section n_clusters_facts.
Import Py Model.

Lemma n_datapoints_nonneg {frame} (trajs : list (list frame)) :
  (0 ≤ n_datapoints trajs)%Z.
Proof.
  unfold n_datapoints. induction trajs as [|t trajs IH]; simpl; lia.
Qed.

(** [Z.sqrt (n / 2)] is the integer part of the real square root of
    [n / 2]: the [k] with [2 k² ≤ n < 2 (k + 1)²]. *)
Lemma n_clusters_floor n :
  (0 ≤ n)%Z →
  (0 ≤ n_clusters n ∧
   2 * (n_clusters n * n_clusters n) ≤ n
     < 2 * ((n_clusters n + 1) * (n_clusters n + 1)))%Z.
Proof.
  intros Hn. unfold n_clusters.
  assert (0 ≤ n / 2)%Z as Hh by (apply Z.div_pos; lia).
  pose proof (Z.sqrt_spec (n / 2) Hh) as Hs. simpl in Hs.
  pose proof (Z.sqrt_nonneg (n / 2)).
  pose proof (Z.div_mod n 2 ltac:(lia)).
  pose proof (Z.mod_pos_bound n 2 ltac:(lia)).
  lia.
Qed.

(** C4 as the specification words it fails: no minimum is applied, and
    the empty set and a single frame give zero clusters. *)
Lemma n_clusters_not_clamped :
  n_clusters (n_datapoints (@nil (list Z))) = 0%Z
  ∧ n_clusters (n_datapoints [[7%Z]]) = 0%Z
  ∧ ¬ (∀ trajs : list (list Z), (1 ≤ n_clusters (n_datapoints trajs))%Z).
Proof.
  split_and!; [done|done|].
  intros Hall. specialize (Hall []). vm_compute in Hall. by apply Hall.
Qed.

(** C4, as the code has it.  With [N] frames in all, the number of
    clusters is the integer part of the square root of [N / 2], without
    a minimum: it is at least one exactly when there are at least two
    frames, and it never decreases as frames are added. *)
Theorem n_clusters_floor_sqrt {frame} (trajs : list (list frame)) :
  let N := n_datapoints trajs in
  let k := n_clusters N in
  (0 ≤ k)%Z
  ∧ (2 * (k * k) ≤ N < 2 * ((k + 1) * (k + 1)))%Z
  ∧ ((1 ≤ k)%Z ↔ (2 ≤ N)%Z)
  ∧ ∀ more : list (list frame),
      (k ≤ n_clusters (n_datapoints (trajs ++ more)))%Z.
Proof.
  intros N k.
  pose proof (n_datapoints_nonneg trajs) as HN.
  destruct (n_clusters_floor N HN) as (Hk & Hlo & Hhi).
  fold k in Hk, Hlo, Hhi.
  split_and!; [done|done|done|split; nia|].
  intros more. unfold k, n_clusters. apply Z.sqrt_le_mono.
  apply Z.div_le_mono; [lia|].
  unfold N, n_datapoints. rewrite map_app, foldr_app.
  pose proof (n_datapoints_nonneg more) as Hm. unfold n_datapoints in Hm.
  generalize dependent (foldr Z.add 0%Z (map (λ t, Z.of_nat (length t)) more)).
  intros z Hz. clear -Hz.
  induction trajs as [|t trajs IH]; simpl; lia.
Qed.

End n_clusters_facts.

(** ** Model building and the library's failures *)
Section model_facts.
Import Py Model.

(** C6 as the specification words it fails: with the reference
    estimator a set holding a trajectory shorter than the lag time,
    and the empty trajectory set, both build a model; so it is not the
    case that every estimator makes [_model] raise
    [InsufficientDataError] on such input. *)
Lemma model_insufficient_builds :
  insufficient [[1; 2; 1; 2]; [1]] 2
  ∧ snd (TMatModeller._model (H := Reference.counting)
           TMatModeller.__init__ [[1; 2; 1; 2]; [1]] 2%Z) = Ok ()
  ∧ insufficient (@nil (list nat)) 1
  ∧ snd (TMatModeller._model (H := Reference.counting)
           TMatModeller.__init__ [] 1%Z) = Ok ()
  ∧ ¬ (∀ (E : Estimator) (trajs : list (list nat)) lagtime,
         insufficient trajs lagtime →
         snd (TMatModeller._model TMatModeller.__init__ trajs lagtime)
         = Err (Raise "InsufficientDataError")).
Proof.
  assert (insufficient [[1; 2; 1; 2]; [1]] 2) as Hshort.
  { right. exists [1]. split; [|done].
    apply elem_of_cons. right. apply elem_of_cons. by left. }
  split_and!; [done|done|by left|done|].
  intros Hall.
  specialize (Hall Reference.counting [[1; 2; 1; 2]; [1]] 2%Z Hshort).
  discriminate.
Qed.

(** C6, as the code has it.  [_model] looks at neither the number of
    frames nor the length of a trajectory; it raises exactly when a
    [fit] of the library raises, and with that exception. *)
Theorem model_fails_as_library :
  (∀ (E : Estimator) self trajs lagtime e,
     snd (TMatModeller._model self trajs lagtime) = Err e
     ↔ msm_fit lagtime trajs = Err e)
  ∧ (∀ frame (C : Clusterer frame) (E : Estimator) self
       (trajs_vec : list (list frame)) lagtime e,
       snd (ClusterModeller._model self trajs_vec lagtime) = Err e
       ↔ kmeans_fit (n_clusters (n_datapoints trajs_vec)) trajs_vec = Err e
         ∨ ∃ labels,
             kmeans_fit (n_clusters (n_datapoints trajs_vec)) trajs_vec
             = Ok labels
             ∧ msm_fit lagtime labels = Err e).
Proof.
  split.
  - intros E self trajs lagtime e. unfold TMatModeller._model.
    destruct (msm_fit lagtime trajs); simpl; split; congruence.
  - intros frame C E self trajs_vec lagtime e. unfold ClusterModeller._model.
    destruct (kmeans_fit _ trajs_vec) as [labels|e1]; simpl.
    + destruct (msm_fit lagtime labels) as [c|e2] eqn:Hfit; simpl.
      * split; [congruence|]. intros [?|(l & ? & ?)]; congruence.
      * split.
        -- intros [= ->]. right. by exists labels.
        -- intros [?|(l & ? & ?)]; congruence.
    + split; [intros [= ->]; by left|]. intros [?|(l & ? & ?)]; congruence.
Qed.

End model_facts.

(** ** TMatModeller: the found states *)
Section found_states_facts.
Import Py Model.

(** The cells listed by [tocoo] are the non-zero cells. *)
Lemma elem_of_tocoo c i j : (i, j) ∈ tocoo c ↔ nonzero c i j.
Proof.
  unfold tocoo, nonzero. rewrite list_elem_of_join. split.
  - intros (cells & Hin & Hcells).
    apply elem_of_lookup_imap in Hcells as (i' & row & -> & Hrow).
    apply list_elem_of_join in Hin as (cell & Hin & Hcell).
    apply elem_of_lookup_imap in Hcell as (j' & x & -> & Hx).
    case_decide as Hz; [by apply elem_of_nil in Hin|].
    apply list_elem_of_singleton in Hin as [= -> ->].
    by exists row, x.
  - intros (row & x & Hrow & Hx & Hnz).
    eexists. split; [|by apply (elem_of_lookup_imap_2 _ _ _ _ Hrow)].
    apply list_elem_of_join. eexists.
    split; [|by apply (elem_of_lookup_imap_2 _ _ _ _ Hx)].
    simpl. case_decide; [done|]. by apply list_elem_of_singleton.
Qed.

Lemma elem_of_unique xs x : x ∈ unique xs ↔ x ∈ xs.
Proof.
  unfold unique. by rewrite merge_sort_Permutation, elem_of_remove_dups.
Qed.

Lemma unique_NoDup xs : NoDup (unique xs).
Proof.
  unfold unique. rewrite merge_sort_Permutation. apply NoDup_remove_dups.
Qed.

Lemma unique_sorted xs : Sorted (≤) (unique xs).
Proof. unfold unique. apply Sorted_merge_sort. apply _. Qed.

(** C5. After [TMatModeller._model] has built a model, a state is in
    [found_states] if and only if the counts matrix has a non-zero cell
    in its row or in its column; the states are listed once each, in
    ascending order. *)
Theorem found_states_exact `{Estimator} self trajs lagtime self' :
  TMatModeller._model self trajs lagtime = (self', Ok ()) →
  ∃ c fs,
    counts self' = Ok c
    ∧ TMatModeller.found_states self' = Some fs
    ∧ (∀ s, s ∈ fs ↔ (∃ j, nonzero c s j) ∨ (∃ i, nonzero c i s))
    ∧ NoDup fs ∧ Sorted (≤) fs.
Proof.
  unfold TMatModeller._model.
  destruct (msm_fit lagtime trajs) as [c|e]; [|discriminate].
  intros [= <-]. eexists c, _.
  split_and!; [done|done| |apply unique_NoDup|apply unique_sorted].
  intros s. rewrite elem_of_unique, elem_of_app, !list_elem_of_fmap.
  split.
  - intros [([i j] & -> & Hin)|([i j] & -> & Hin)];
      apply elem_of_tocoo in Hin; [left|right]; eauto.
  - intros [(j & Hnz)|(i & Hnz)]; apply elem_of_tocoo in Hnz;
      [left; by exists (s, j)|right; by exists (i, s)].
Qed.

Lemma found_states_exact_witness :
  ∃ c fs,
    counts tmat_121 = Ok c
    ∧ TMatModeller.found_states tmat_121 = Some fs
    ∧ (∀ s, s ∈ fs ↔ (∃ j, nonzero c s j) ∨ (∃ i, nonzero c i s))
    ∧ NoDup fs ∧ Sorted (≤) fs.
Proof.
  apply (found_states_exact (H := Reference.counting)
           TMatModeller.__init__ [[1; 2; 1]] 1%Z tmat_121).
  reflexivity.
Defined.

End found_states_facts.

(** ** Trajectory loading *)
Section loading_facts.
Import Py Model.
Context {traj : Type}.
Variable listdir : string → result (list string).
Variable load_func : string → result traj.
Variable len : traj → Z.

#[local] Abbreviation load_round := (load_round listdir load_func).
#[local] Abbreviation load_rounds := (load_rounds listdir load_func).
#[local] Abbreviation load_trajectories :=
  (load_trajectories listdir load_func len).

(** The loop appends to its accumulator what each round directory
    holds, in the order of the rounds. *)
Lemma load_rounds_acc rounds acc trajs :
  load_rounds rounds acc = Ok trajs →
  ∃ per_round,
    mapM load_round rounds = Ok per_round ∧ trajs = acc ++ concat per_round.
Proof.
  revert acc. induction rounds as [|r rounds IH]; intros acc; simpl.
  { intros [= <-]. exists []. by rewrite app_nil_r. }
  unfold mbind, result_bind.
  destruct (load_round r) as [new|e]; simpl; [|discriminate].
  intros (per_round & -> & ->)%IH. simpl.
  exists (new :: per_round). by rewrite <- app_assoc.
Qed.

Lemma load_rounds_snoc rounds r acc trajs :
  load_rounds (rounds ++ [r]) acc = Ok trajs →
  ∃ before new,
    load_rounds rounds acc = Ok before
    ∧ load_round r = Ok new
    ∧ trajs = before ++ new.
Proof.
  revert acc. induction rounds as [|r0 rounds IH]; intros acc; simpl.
  - unfold mbind, result_bind.
    destruct (load_round r) as [new|e]; simpl; [|discriminate].
    intros [= <-]. by exists acc, new.
  - unfold mbind, result_bind.
    destruct (Model.load_round listdir load_func r0) as [new0|e]; simpl;
      [|discriminate].
    apply IH.
Qed.

Lemma length_mapM {A B} (f : A → result B) xs ys :
  mapM f xs = Ok ys → length ys = length xs.
Proof.
  revert ys. induction xs as [|x xs IH]; intros ys; simpl.
  { by intros [= <-]. }
  destruct (f x); simpl; [|discriminate].
  destruct (mapM f xs) as [ys'|]; simpl; [|discriminate].
  intros [= <-]. simpl. f_equal. by apply IH.
Qed.

(** C8. When [load_trajectories] returns for round [i], the round is
    not negative, the trajectories are those of the round directories
    [0 .. i] in this order, and whatever it returns for round [i - 1]
    is an initial part of them: every trajectory used for round
    [i - 1] is used for round [i]. *)
Theorem load_trajectories_cumulative round_i wall_steps trajs :
  load_trajectories round_i = Ok (wall_steps, trajs) →
  (0 ≤ round_i)%Z
  ∧ (∃ per_round,
       mapM load_round (range (round_i + 1)) = Ok per_round
       ∧ length per_round = Z.to_nat (round_i + 1)
       ∧ trajs = concat per_round)
  ∧ (∀ wall_steps' trajs',
       load_trajectories (round_i - 1) = Ok (wall_steps', trajs') →
       trajs' `prefix_of` trajs ∧ ∀ t, t ∈ trajs' → t ∈ trajs).
Proof.
  unfold Model.load_trajectories, mbind, result_bind.
  destruct (Model.load_rounds listdir load_func (range (round_i + 1)) [])
    as [ts|e] eqn:Hload; simpl; [|discriminate].
  destruct ts as [|t0 ts]; [discriminate|]. intros [= <- <-].
  assert (0 ≤ round_i)%Z as Hpos.
  { destruct (decide (0 ≤ round_i)%Z) as [|Hneg]; [done|].
    unfold range in Hload.
    replace (Z.to_nat (round_i + 1)) with 0 in Hload by lia.
    discriminate. }
  split_and!; [done| |].
  - apply load_rounds_acc in Hload as (per_round & Hmap & ->).
    exists per_round. split_and!; [done| |done].
    apply length_mapM in Hmap. rewrite Hmap. unfold range.
    by rewrite length_seq.
  - intros w' ts'.
    destruct (Model.load_rounds listdir load_func (range (round_i - 1 + 1)) [])
      as [ts0|e] eqn:Hload'; simpl; [|discriminate].
    destruct ts0 as [|t1 ts0]; [discriminate|]. intros [= <- <-].
    unfold range in Hload, Hload'.
    replace (Z.to_nat (round_i + 1)) with (S (Z.to_nat round_i)) in Hload
      by lia.
    replace (Z.to_nat (round_i - 1 + 1)) with (Z.to_nat round_i) in Hload'
      by lia.
    rewrite seq_S in Hload.
    apply load_rounds_snoc in Hload as (before & new & Hb & _ & Heq).
    rewrite Hload' in Hb. injection Hb as <-.
    rewrite Heq. split; [by exists new|].
    intros t Ht. apply elem_of_app. by left.
Qed.

End loading_facts.

Lemma load_trajectories_cumulative_witness :
  (0 ≤ 1)%Z
  ∧ (∃ per_round,
       Py.mapM (Model.load_round sample_listdir sample_load)
         (Model.range (1 + 1)) = Py.Ok per_round
       ∧ length per_round = Z.to_nat (1 + 1)
       ∧ [[0; 1; 0]; [1; 1; 0]] = concat per_round)
  ∧ (∀ wall_steps' trajs',
       Model.load_trajectories sample_listdir sample_load sample_len (1 - 1)
       = Py.Ok (wall_steps', trajs') →
       trajs' `prefix_of` [[0; 1; 0]; [1; 1; 0]]
       ∧ ∀ t, t ∈ trajs' → t ∈ [[0; 1; 0]; [1; 1; 0]]).
Proof.
  apply (load_trajectories_cumulative sample_listdir sample_load sample_len
           1%Z 6%Z [[0; 1; 0]; [1; 1; 0]]).
  reflexivity.
Defined.

(** ** AdaptiveParams.make_directories *)
Section make_directories_facts.
Import Py Os Param.

Lemma mkdir_err path fs e : mkdir path fs = Err e → e = OSError.
Proof. unfold mkdir. repeat case_match; congruence. Qed.

Lemma mkdir_ok path fs fs' :
  mkdir path fs = Ok fs' → dirs fs' = {[path]} ∪ dirs fs.
Proof. unfold mkdir. repeat case_match; try discriminate. by intros [= <-]. Qed.

Lemma mkdirs_err paths fs fs' e :
  mkdirs paths fs = (fs', Some e) → e = OSError.
Proof.
  revert fs. induction paths as [|p paths IH]; intros fs; simpl.
  { discriminate. }
  destruct (mkdir p fs) as [fs1|e1] eqn:Hmk; [by apply IH|].
  intros [= <- <-]. by apply mkdir_err in Hmk.
Qed.

(** A path that exists stops the sequence of [os.mkdir] calls. *)
Lemma mkdirs_exists paths fs :
  (∃ d, d ∈ paths ∧ d ∈ dirs fs) →
  ∃ fs', mkdirs paths fs = (fs', Some OSError).
Proof.
  revert fs. induction paths as [|p paths IH]; intros fs (d & Hd & Hin).
  { by apply elem_of_nil in Hd. }
  simpl. destruct (mkdir p fs) as [fs1|e1] eqn:Hmk.
  - apply IH. exists d.
    pose proof (mkdir_ok _ _ _ Hmk) as Hdirs.
    split; [|rewrite Hdirs; apply elem_of_union; by right].
    apply elem_of_cons in Hd as [->|Hd]; [|done].
    unfold mkdir in Hmk. by rewrite decide_True in Hmk.
  - apply mkdir_err in Hmk as ->. by exists fs.
Qed.

Lemma mkdirs_head_exists p paths fs :
  p ∈ dirs fs → mkdirs (p :: paths) fs = (fs, Some OSError).
Proof. intros Hp. simpl. unfold mkdir. by rewrite decide_True. Qed.

(** After a sequence of [os.mkdir] calls without failure every path
    exists. *)
Lemma mkdirs_ok paths fs fs' :
  mkdirs paths fs = (fs', None) →
  dirs fs ⊆ dirs fs' ∧ Forall (λ d, d ∈ dirs fs') paths.
Proof.
  revert fs. induction paths as [|p paths IH]; intros fs; simpl.
  { intros [= <-]. split; [done|constructor]. }
  destruct (mkdir p fs) as [fs1|e1] eqn:Hmk; [|discriminate].
  intros [Hsub Hall]%IH.
  pose proof (mkdir_ok _ _ _ Hmk) as Hdirs.
  split.
  - intros d Hd. apply Hsub. rewrite Hdirs. apply elem_of_union. by right.
  - constructor; [|done].
    apply Hsub. rewrite Hdirs. apply elem_of_union. left.
    by apply elem_of_singleton.
Qed.

(** The record logged when the layout cannot be created. *)
Lemma make_directories_cases w rd :
  rundir (self w) = Some rd →
  ∃ w',
    (make_directories w = (Ok ("", false), w')
     ∧ log w' = warning "Skipping %s (%s)" [ArgStr rd; ArgExn OSError] (log w)
     ∧ snd (mkdirs (layout rd) (fs w)) = Some OSError
     ∧ fs w' = fst (mkdirs (layout rd) (fs w)))
    ∨ (make_directories w = (Ok (pjoin rd TRAJ, true), w')
       ∧ log w' = log w
       ∧ mkdirs (layout rd) (fs w) = (fs w', None)
       ∧ rundir (self w') = Some rd).
Proof.
  intros Hrd. unfold make_directories. rewrite Hrd.
  fold (layout rd).
  destruct (mkdirs (layout rd) (fs w)) as [fs' [e|]] eqn:Hmk.
  - apply mkdirs_err in Hmk as ->. eexists. left. by split_and!.
  - eexists. right. by split_and!.
Qed.

(** C9. With the run directory set, [make_directories] never raises:
    it returns [('', False)] or [(traj_dir, True)].  When a directory
    of the layout already exists it returns [('', False)] and logs one
    warning, leaving the file system as it was if the first directory
    exists; and a second call after a successful one does just that. *)
Theorem make_directories_idempotent w rd :
  rundir (self w) = Some rd →
  (∃ r w', make_directories w = (Ok r, w'))
  ∧ ((∃ d, d ∈ layout rd ∧ d ∈ dirs (fs w)) →
     ∃ w',
       make_directories w = (Ok ("", false), w')
       ∧ log w'
         = warning "Skipping %s (%s)" [ArgStr rd; ArgExn OSError] (log w)
       ∧ (Forall (λ d, d ∈ dirs (fs w)) (layout rd) → fs w' = fs w))
  ∧ (∀ d w1,
       make_directories w = (Ok (d, true), w1) →
       ∃ w2,
         make_directories w1 = (Ok ("", false), w2)
         ∧ fs w2 = fs w1
         ∧ log w2
           = warning "Skipping %s (%s)" [ArgStr rd; ArgExn OSError] (log w1)).
Proof.
  intros Hrd.
  destruct (make_directories_cases w rd Hrd)
    as (w' & [(Hret & Hlog & Hsnd & Hfs)|(Hret & Hlog & Hmk & Hrd')]).
  - split_and!.
    + by eexists _, _.
    + intros Hex. exists w'. split_and!; [done|done|].
      intros Hall. rewrite Hfs.
      apply Forall_cons in Hall as [Hhd _].
      unfold layout. by rewrite mkdirs_head_exists.
    + intros d w1. rewrite Hret. discriminate.
  - split_and!.
    + by eexists _, _.
    + intros Hex. apply mkdirs_exists in Hex as (fs' & Hex).
      rewrite Hex in Hmk. discriminate.
    + intros d w1. rewrite Hret. intros [= <- <-].
      apply mkdirs_ok in Hmk as [_ Hall].
      destruct (make_directories_cases w' rd Hrd')
        as (w2 & [(Hret2 & Hlog2 & _ & Hfs2)|(_ & _ & Hmk2 & _)]).
      * exists w2. split_and!; [done| |done].
        rewrite Hfs2. apply Forall_cons in Hall as [Hhd _].
        unfold layout. by rewrite mkdirs_head_exists.
      * destruct (mkdirs_exists (layout rd) (fs w')) as (fs' & Hex).
        { exists (pjoin rd TRAJ). split; [by left|].
          by apply Forall_cons in Hall as [? _]. }
        rewrite Hex in Hmk2. discriminate.
Qed.

End make_directories_facts.

Lemma make_directories_idempotent_witness :
  (∃ r w', Param.make_directories sample_world = (Py.Ok r, w'))
  ∧ ((∃ d, d ∈ layout "run" ∧ d ∈ Os.dirs (Param.fs sample_world)) →
     ∃ w',
       Param.make_directories sample_world = (Py.Ok ("", false), w')
       ∧ Param.log w'
         = Os.warning "Skipping %s (%s)"
             [Os.ArgStr "run"; Os.ArgExn Py.OSError] (Param.log sample_world)
       ∧ (Forall (λ d, d ∈ Os.dirs (Param.fs sample_world)) (layout "run") →
          Param.fs w' = Param.fs sample_world))
  ∧ (∀ d w1,
       Param.make_directories sample_world = (Py.Ok (d, true), w1) →
       ∃ w2,
         Param.make_directories w1 = (Py.Ok ("", false), w2)
         ∧ Param.fs w2 = Param.fs w1
         ∧ Param.log w2
           = Os.warning "Skipping %s (%s)"
               [Os.ArgStr "run"; Os.ArgExn Py.OSError] (Param.log w1)).
Proof.
  apply (make_directories_idempotent sample_world "run"). reflexivity.
Defined.

(** ** Worked examples *)

Example argsort_ascending_scenario :
  Np.argsort_ascending [5; 5; 1]%Z = [2; 0; 1].
Proof. reflexivity. Qed.

Example argsort_descending_scenario :
  Np.argsort_descending [5; 5; 1]%Z = [2; 1; 0].
Proof. reflexivity. Qed.

Example argsort_descending_four :
  Np.argsort_descending [2; 3; 0; 0]%Z = [3; 2; 0; 1].
Proof. reflexivity. Qed.

Example aquicksort_seventeen_ties :
  Np.aquicksort_argsort 15 (replicate 17 1%Z)
  = [0; 14; 13; 12; 11; 10; 9; 15; 8; 6; 5; 4; 3; 2; 1; 7; 16].
Proof. by vm_compute. Qed.

Example slice_negative : Py.slice_to [2; 0; 1] (-1) = [2; 0].
Proof. reflexivity. Qed.

Example pjoin_relative : Os.pjoin "run" "trajs" = "run/trajs".
Proof. reflexivity. Qed.

Example pjoin_trailing_sep : Os.pjoin "run/" "trajs" = "run/trajs".
Proof. reflexivity. Qed.

Example pjoin_absolute : Os.pjoin "run" "/trajs" = "/trajs".
Proof. reflexivity. Qed.

Example found_states_121 :
  Model.counts tmat_121 = Py.Ok [[0; 0; 0]; [0; 0; 1]; [0; 1; 0]]%Z.
Proof. by vm_compute. Qed.

Example make_directories_fresh :
  (Param.make_directories sample_world).1 = Py.Ok ("run/trajs", true).
Proof. by vm_compute. Qed.

Example make_directories_again :
  (Param.make_directories (Param.make_directories sample_world).2).1
  = Py.Ok ("", false).
Proof. by vm_compute. Qed.

Example make_directories_unset :
  (Param.make_directories
     {| Param.self := Param.__init__ 100%Z 2%Z 0%Z;
        Param.fs := Param.fs sample_world; Param.log := [] |}).1
  = Py.Err Py.TypeError.
Proof. reflexivity. Qed.

Example load_trajectories_round_1 :
  Model.load_trajectories sample_listdir sample_load sample_len 1
  = Py.Ok (6%Z, [[0; 1; 0]; [1; 1; 0]]).
Proof. reflexivity. Qed.

Example load_trajectories_no_round :
  Model.load_trajectories sample_listdir sample_load sample_len (-1)
  = Py.Err Py.IndexError.
Proof. reflexivity. Qed.

(** * Further properties of the code *)

(** ** Which states [adapt] picks *)
Section adapt_more.
Import Py Model Model.SortCountsAdapter.
Context {sorter : Np.ArgSort} `{Modeller M}.
Implicit Types (self : SortCountsAdapter.t M) (params : Param.AdaptiveParams).

(** The states [adapt] returns are the least sampled ones: no state it
    leaves out has a smaller row sum than a state it returns.  This
    holds for every [tpr]. *)
Theorem adapt_selects_least_sampled self params c states s s' :
  counts (modeller self) = Ok c →
  adapt self params = Ok states →
  s ∈ states → s' < length c → s' ∉ states →
  (row_sums c !!! s ≤ row_sums c !!! s')%Z.
Proof.
  intros Hc Hadapt Hs Hs' Hout.
  destruct (adapt_prefix self params c Hc) as (k & Hk & _).
  rewrite Hk in Hadapt. injection Hadapt as <-.
  pose proof (argsort_sorted (row_sums c)) as Hsorted.
  rewrite <- (take_drop k (Np.argsort (row_sums c))) in Hsorted.
  apply (StronglySorted_app_1_elem_of _ _ _ s s') in Hsorted; [done|done|].
  assert (s' ∈ Np.argsort (row_sums c)) as Hin.
  { apply argsort_elem. by rewrite length_row_sums. }
  rewrite <- (take_drop k (Np.argsort (row_sums c))) in Hin.
  apply elem_of_app in Hin as [Hin|Hin]; [by destruct Hout|done].
Qed.

(** A [tpr] of zero selects nothing, and a negative [tpr] is read as a
    slice bound counted from the end: the [-tpr] most sampled states
    are dropped and the others returned, without an error. *)
Theorem adapt_nonpositive_tpr self params c :
  counts (modeller self) = Ok c →
  (Param.tpr params ≤ 0)%Z →
  ∃ states,
    adapt self params = Ok states
    ∧ Z.of_nat (length states)
      = (if decide (Param.tpr params = 0) then 0
         else Z.max 0 (Z.of_nat (length c) + Param.tpr params))%Z
    ∧ states `prefix_of` Np.argsort (row_sums c).
Proof.
  intros Hc Hle. unfold adapt. rewrite Hc. simpl.
  set (a := Np.argsort (row_sums c)).
  assert (length a = length c) as Hla.
  { unfold a. by rewrite argsort_length, length_row_sums. }
  destruct (Z.ltb_spec (Param.tpr params) (Z.of_nat (length a))) as [Hlt|Hge].
  - unfold slice_to. destruct (Z.ltb_spec (Param.tpr params) 0) as [Hneg|Hz].
    + eexists. split_and!; [done| |apply prefix_take].
      rewrite length_take. case_decide; lia.
    + eexists. split_and!; [done| |apply prefix_take].
      rewrite length_take. case_decide; lia.
  - exists a. split_and!; [done| |done].
    case_decide; lia.
Qed.

End adapt_more.

Lemma adapt_selects_least_sampled_witness :
  (Model.row_sums counts3 !!! 2%nat ≤ Model.row_sums counts3 !!! 1%nat)%Z.
Proof.
  apply (adapt_selects_least_sampled (sorter := ascending_ties)
           {| Model.SortCountsAdapter.modeller := tmat_with counts3 |}
           (params_with_tpr 2) counts3 [2; 0] 2 1);
    [reflexivity|reflexivity|compute_done|compute_done|compute_done].
Defined.

Lemma adapt_nonpositive_tpr_witness :
  ∃ states,
    Model.SortCountsAdapter.adapt (sorter := ascending_ties)
      {| Model.SortCountsAdapter.modeller := tmat_with counts3 |}
      (params_with_tpr (-1)) = Py.Ok states
    ∧ Z.of_nat (length states)
      = (if decide ((-1)%Z = 0%Z) then 0 else Z.max 0 (Z.of_nat 3 + -1))%Z
    ∧ states `prefix_of`
        Np.argsort (ArgSort := ascending_ties) (Model.row_sums counts3).
Proof.
  apply (adapt_nonpositive_tpr (sorter := ascending_ties)
           {| Model.SortCountsAdapter.modeller := tmat_with counts3 |}
           (params_with_tpr (-1)) counts3); [reflexivity|compute_done].
Defined.

(** ** What a build leaves in the modeller *)
Section build_more.
Import Py Model.

(** A successful [TMatModeller._model] stores the estimator's matrix
    and the sorted distinct indices of its stored cells. *)
Lemma tmat_model_ok `{Estimator} self trajs lagtime self' :
  TMatModeller._model self trajs lagtime = (self', Ok ()) →
  ∃ c,
    msm_fit lagtime trajs = Ok c
    ∧ TMatModeller.msm self' = Some c
    ∧ TMatModeller.found_states self'
      = Some (unique (map fst (tocoo c) ++ map snd (tocoo c))).
Proof.
  unfold TMatModeller._model.
  destruct (msm_fit lagtime trajs) as [c|e]; [|discriminate].
  intros [= <-]. by exists c.
Qed.

Lemma elem_of_found c s :
  s ∈ unique (map fst (tocoo c) ++ map snd (tocoo c))
  ↔ (∃ j, nonzero c s j) ∨ (∃ i, nonzero c i s).
Proof.
  rewrite elem_of_unique, elem_of_app, !list_elem_of_fmap. split.
  - intros [([i j] & -> & Hin)|([i j] & -> & Hin)];
      apply elem_of_tocoo in Hin; [left|right]; eauto.
  - intros [(j & Hnz)|(i & Hnz)]; apply elem_of_tocoo in Hnz;
      [left; by exists (s, j)|right; by exists (i, s)].
Qed.

(** For an [n]-by-[n] counts matrix every found state is below [n]. *)
Theorem found_states_in_range `{Estimator} self trajs lagtime self' c fs n :
  TMatModeller._model self trajs lagtime = (self', Ok ()) →
  counts self' = Ok c →
  length c = n → Forall (λ row, length row = n) c →
  TMatModeller.found_states self' = Some fs →
  Forall (λ s, s < n) fs.
Proof.
  intros (c' & _ & Hmsm & Hfound)%tmat_model_ok Hc Hrows Hcols Hfs.
  simpl in Hc. rewrite Hmsm in Hc. injection Hc as ->.
  rewrite Hfound in Hfs. injection Hfs as <-.
  apply Forall_forall. intros s Hs.
  apply elem_of_found in Hs as [(j & row & x & Hrow & _ & _)
                               |(i & row & x & Hrow & Hx & _)].
  - apply lookup_lt_Some in Hrow. lia.
  - apply lookup_lt_Some in Hx.
    rewrite Forall_lookup in Hcols. by rewrite (Hcols _ _ Hrow) in Hx.
Qed.

Lemma sum_zero (row : list Z) :
  Forall (λ x, x = 0%Z) row → foldr Z.add 0%Z row = 0%Z.
Proof. induction 1 as [|x row -> _ IH]; simpl; [done|]. by rewrite IH. Qed.

(** A state that is not found has no recorded transition at all: its
    row sum, the count [adapt] sorts by, is zero, and so is every cell
    of its column. *)
Theorem unfound_state_has_no_counts `{Estimator}
    self trajs lagtime self' c fs s :
  TMatModeller._model self trajs lagtime = (self', Ok ()) →
  counts self' = Ok c →
  TMatModeller.found_states self' = Some fs →
  s ∉ fs →
  (∀ n, row_sums c !! s = Some n → n = 0%Z)
  ∧ ∀ i row x, c !! i = Some row → row !! s = Some x → x = 0%Z.
Proof.
  intros (c' & _ & Hmsm & Hfound)%tmat_model_ok Hc Hfs Hs.
  simpl in Hc. rewrite Hmsm in Hc. injection Hc as ->.
  rewrite Hfound in Hfs. injection Hfs as <-.
  rewrite elem_of_found in Hs.
  split.
  - intros n. unfold row_sums. rewrite list_lookup_fmap.
    intros (row & Hrow & ->)%fmap_Some.
    apply sum_zero, Forall_lookup. intros j x Hx.
    destruct (decide (x = 0%Z)) as [|Hnz]; [done|].
    destruct Hs. left. by exists j, row, x.
  - intros i row x Hrow Hx.
    destruct (decide (x = 0%Z)) as [|Hnz]; [done|].
    destruct Hs. right. by exists i, row, x.
Qed.

(** A failed [TMatModeller._model] changes nothing: the modeller keeps
    the model and the found states of the build before, and [counts]
    keeps answering from them. *)
Theorem tmat_model_failure_keeps_state `{Estimator} self trajs lagtime self' e :
  TMatModeller._model self trajs lagtime = (self', Err e) →
  self' = self ∧ msm_fit lagtime trajs = Err e.
Proof.
  unfold TMatModeller._model.
  destruct (msm_fit lagtime trajs) as [c|e']; [discriminate|].
  by intros [= <- <-].
Qed.

(** A failed [ClusterModeller._model] leaves the counts of the build
    before in place, so [counts] answers with a stale matrix; when it
    is the estimator that failed, the clusterer has been replaced all
    the same. *)
Theorem cluster_model_failure_keeps_counts `{Clusterer frame, Estimator}
    self (trajs_vec : list (list frame)) lagtime self' e :
  ClusterModeller._model self trajs_vec lagtime = (self', Err e) →
  counts self' = counts self
  ∧ (∀ labels,
       kmeans_fit (n_clusters (n_datapoints trajs_vec)) trajs_vec = Ok labels →
       ClusterModeller.clusterer self' = Some labels)
  ∧ (kmeans_fit (n_clusters (n_datapoints trajs_vec)) trajs_vec = Err e →
     self' = self).
Proof.
  unfold ClusterModeller._model.
  destruct (kmeans_fit _ trajs_vec) as [labels|e1].
  - destruct (msm_fit lagtime labels) as [c|e2]; [discriminate|].
    intros [= <- <-]. split_and!; [done| |discriminate].
    by intros ? [= <-].
  - intros [= <- <-]. split_and!; [done|discriminate|done].
Qed.

(** After a successful [ClusterModeller._model] the counts are those
    of the estimator run on the labels the clusterer gave for
    [n_clusters] clusters, and [adapt] returns states of that matrix
    instead of raising. *)
Theorem cluster_model_then_adapt
    {sorter : Np.ArgSort} `{Clusterer frame, Estimator}
    self (trajs_vec : list (list frame)) lagtime self' params :
  ClusterModeller._model self trajs_vec lagtime = (self', Ok ()) →
  ∃ labels c states,
    kmeans_fit (n_clusters (n_datapoints trajs_vec)) trajs_vec = Ok labels
    ∧ msm_fit lagtime labels = Ok c
    ∧ ClusterModeller.clusterer self' = Some labels
    ∧ counts self' = Ok c
    ∧ SortCountsAdapter.adapt
        {| SortCountsAdapter.modeller := self' |} params = Ok states
    ∧ Forall (λ s, s < length c) states.
Proof.
  unfold ClusterModeller._model.
  destruct (kmeans_fit _ trajs_vec) as [labels|e1] eqn:Hkm; [|discriminate].
  destruct (msm_fit lagtime labels) as [c|e2] eqn:Hfit; [|discriminate].
  intros [= <-].
  set (built := {| ClusterModeller.msm := Some c;
                   ClusterModeller.clusterer := Some labels |}).
  assert (counts built = Ok c) as Hc by done.
  destruct (adapt_prefix {| SortCountsAdapter.modeller := built |}
              params c Hc) as (k & Hk & _).
  eexists labels, c, _. split_and!; [done|done|done|done|exact Hk|].
  apply Forall_take, Forall_forall. intros s Hs.
  apply argsort_elem in Hs. by rewrite length_row_sums in Hs.
Qed.

End build_more.

Section build_more_witnesses.
Import Py Model.

Lemma found_states_in_range_witness : Forall (λ s, s < 3) [1; 2].
Proof.
  apply (found_states_in_range (H := Reference.counting)
           TMatModeller.__init__ [[1; 2; 1]] 1%Z tmat_121
           [[0; 0; 0]; [0; 0; 1]; [0; 1; 0]]%Z [1; 2] 3);
    [reflexivity|by vm_compute|reflexivity|compute_done|by vm_compute].
Defined.

Lemma unfound_state_has_no_counts_witness :
  (∀ n, row_sums [[0; 0; 0]; [0; 0; 1]; [0; 1; 0]]%Z !! 0 = Some n → n = 0%Z)
  ∧ ∀ i row x,
      ([[0; 0; 0]; [0; 0; 1]; [0; 1; 0]]%Z : matrix) !! i = Some row →
      row !! 0 = Some x → x = 0%Z.
Proof.
  apply (unfound_state_has_no_counts (H := Reference.counting)
           TMatModeller.__init__ [[1; 2; 1]] 1%Z tmat_121
           [[0; 0; 0]; [0; 0; 1]; [0; 1; 0]]%Z [1; 2] 0);
    [reflexivity|by vm_compute|by vm_compute|compute_done].
Defined.

Lemma tmat_model_failure_keeps_state_witness :
  tmat_121 = tmat_121
  ∧ msm_fit (Estimator := failing_estimator) 1%Z [[0; 1]]
    = Err (Raise "ValueError").
Proof.
  apply (tmat_model_failure_keeps_state (H := failing_estimator)
           tmat_121 [[0; 1]] 1%Z tmat_121 (Raise "ValueError")).
  reflexivity.
Defined.

Lemma cluster_model_failure_keeps_counts_witness :
  counts {| ClusterModeller.msm := None;
            ClusterModeller.clusterer := Some [[0; 0; 0; 0]] |}
  = counts ClusterModeller.__init__
  ∧ (∀ labels,
       kmeans_fit (Clusterer := sample_clusterer)
         (n_clusters (n_datapoints [[1; 2; 3; 4]%Z])) [[1; 2; 3; 4]%Z]
       = Ok labels →
       ClusterModeller.clusterer
         {| ClusterModeller.msm := None;
            ClusterModeller.clusterer := Some [[0; 0; 0; 0]] |}
       = Some labels)
  ∧ (kmeans_fit (Clusterer := sample_clusterer)
       (n_clusters (n_datapoints [[1; 2; 3; 4]%Z])) [[1; 2; 3; 4]%Z]
     = Err (Raise "ValueError") →
     {| ClusterModeller.msm := None;
        ClusterModeller.clusterer := Some [[0; 0; 0; 0]] |}
     = ClusterModeller.__init__).
Proof.
  apply (cluster_model_failure_keeps_counts
           (H := sample_clusterer) (H0 := failing_estimator)
           ClusterModeller.__init__ [[1; 2; 3; 4]%Z] 1%Z
           {| ClusterModeller.msm := None;
              ClusterModeller.clusterer := Some [[0; 0; 0; 0]] |}
           (Raise "ValueError")).
  reflexivity.
Defined.

Lemma cluster_model_then_adapt_witness :
  ∃ labels c states,
    kmeans_fit (Clusterer := sample_clusterer)
      (n_clusters (n_datapoints [[1; 2; 3; 4]%Z])) [[1; 2; 3; 4]%Z]
    = Ok labels
    ∧ msm_fit (Estimator := Reference.counting) 1%Z labels = Ok c
    ∧ ClusterModeller.clusterer
        {| ClusterModeller.msm := Some [[3%Z]];
           ClusterModeller.clusterer := Some [[0; 0; 0; 0]] |}
      = Some labels
    ∧ counts {| ClusterModeller.msm := Some [[3%Z]];
                ClusterModeller.clusterer := Some [[0; 0; 0; 0]] |}
      = Ok c
    ∧ SortCountsAdapter.adapt (sorter := ascending_ties)
        {| SortCountsAdapter.modeller :=
             {| ClusterModeller.msm := Some [[3%Z]];
                ClusterModeller.clusterer := Some [[0; 0; 0; 0]] |} |}
        (params_with_tpr 2) = Ok states
    ∧ Forall (λ s, s < length c) states.
Proof.
  apply (cluster_model_then_adapt (sorter := ascending_ties)
           (H := sample_clusterer) (H0 := Reference.counting)
           ClusterModeller.__init__ [[1; 2; 3; 4]%Z] 1%Z
           {| ClusterModeller.msm := Some [[3%Z]];
              ClusterModeller.clusterer := Some [[0; 0; 0; 0]] |}
           (params_with_tpr 2)).
  reflexivity.
Defined.

End build_more_witnesses.

(** ** Paths *)
Section path_facts.
Import Os.

Lemma str_app_cons x (a b : string) : String x a +:+ b = String x (a +:+ b).
Proof. reflexivity. Qed.

Lemma str_app_assoc (a b c : string) : (a +:+ b) +:+ c = a +:+ (b +:+ c).
Proof.
  induction a as [|x a IH]; [done|]. rewrite !str_app_cons. by rewrite IH.
Qed.

Lemma str_length_app (a b : string) :
  String.length (a +:+ b) = String.length a + String.length b.
Proof.
  induction a as [|x a IH]; [done|]. rewrite str_app_cons. simpl.
  by rewrite IH.
Qed.

Lemma str_app_inv_tail (a b t : string) : a +:+ t = b +:+ t → a = b.
Proof.
  revert b. induction a as [|x a IH]; intros [|y b] Heq.
  - done.
  - apply (f_equal String.length) in Heq.
    rewrite !str_length_app in Heq. simpl in Heq. lia.
  - apply (f_equal String.length) in Heq.
    rewrite !str_length_app in Heq. simpl in Heq. lia.
  - rewrite !str_app_cons in Heq. injection Heq as -> Heq.
    f_equal. by apply IH.
Qed.

Lemma pjoin_relative_part a b :
  startswith b "/" = false → pjoin a b = join_head a +:+ b.
Proof.
  intros Hrel. unfold pjoin, join_head. rewrite Hrel.
  case_match; [done|]. by rewrite str_app_assoc.
Qed.

(** Joining two relative parts to the same directory gives the same
    path only when the parts are the same. *)
Lemma pjoin_inj a b b' :
  startswith b "/" = false → startswith b' "/" = false →
  pjoin a b = pjoin a b' → b = b'.
Proof.
  intros Hb Hb'. rewrite !pjoin_relative_part by done.
  apply String.app_inj.
Qed.

Lemma layout_NoDup rd : NoDup (layout rd).
Proof.
  unfold layout.
  assert (∀ b b', startswith b "/" = false → startswith b' "/" = false →
                  b ≠ b' → pjoin rd b ≠ pjoin rd b') as Hne.
  { intros b b' ? ? Hbb Heq. by apply Hbb, (pjoin_inj rd). }
  repeat (apply NoDup_cons; split;
          [rewrite ?elem_of_cons, elem_of_nil;
           intros Hin; repeat destruct Hin as [Hin|Hin]; try done;
           by eapply Hne in Hin|]).
  apply NoDup_nil_2.
Qed.

End path_facts.

(** ** More on AdaptiveParams *)
Section param_more.
Import Py Os Param.

(** The calls succeed together exactly when each path is new and not
    refused; the paths are then what the file system gains. *)
Lemma mkdirs_success paths fs :
  NoDup paths →
  (snd (mkdirs paths fs) = None
   ↔ Forall (λ d, (d ∉ dirs fs) ∧ refuses fs d = false) paths)
  ∧ (snd (mkdirs paths fs) = None →
     dirs (fst (mkdirs paths fs)) = list_to_set paths ∪ dirs fs).
Proof.
  revert fs. induction paths as [|p paths IH]; intros fs Hnd; simpl.
  { split; [done|]. intros _. by rewrite (left_id_L ∅ (∪)). }
  apply NoDup_cons in Hnd as [Hp Hnd].
  unfold mkdir. destruct (decide (p ∈ dirs fs)) as [Hin|Hout]; simpl.
  { split; [|done]. split; [done|]. by intros [[? _] _]%Forall_cons. }
  destruct (refuses fs p) eqn:Href; simpl.
  { split; [|done]. split; [done|]. intros [[_ ?] _]%Forall_cons. congruence. }
  set (fs1 := {| dirs := {[p]} ∪ dirs fs; refuses := refuses fs |}).
  destruct (IH fs1 Hnd) as [Hiff Hdirs]. split.
  - rewrite Hiff, Forall_cons. split.
    + intros Hall. split; [done|].
      eapply Forall_impl; [exact Hall|]. simpl. intros d [Hd ?].
      split; [|done]. intros ?. apply Hd. apply elem_of_union. by right.
    + intros [_ Hall]. rewrite Forall_forall in Hall.
      apply Forall_forall. intros d Hd. simpl.
      destruct (Hall d Hd) as [Hfresh ?]. split; [|done].
      intros [->%elem_of_singleton|?]%elem_of_union; [done|by apply Hfresh].
  - intros Hok. rewrite (Hdirs Hok). simpl.
    rewrite !(assoc_L (∪)).
    by rewrite (comm_L (∪) (list_to_set paths)).
Qed.

(** Whatever the outcome, the calls only add paths of the list. *)
Lemma mkdirs_dirs paths fs :
  dirs fs ⊆ dirs (fst (mkdirs paths fs))
  ∧ (∀ d, d ∈ dirs (fst (mkdirs paths fs)) → d ∈ dirs fs ∨ d ∈ paths)
  ∧ refuses (fst (mkdirs paths fs)) = refuses fs.
Proof.
  revert fs. induction paths as [|p paths IH]; intros fs; simpl.
  { split_and!; [done|by left|done]. }
  destruct (mkdir p fs) as [fs1|e] eqn:Hmk; simpl.
  - destruct (IH fs1) as (Hsub & Hnew & Href).
    pose proof (mkdir_ok _ _ _ Hmk) as Hdirs.
    assert (refuses fs1 = refuses fs) as Href1.
    { unfold mkdir in Hmk. repeat case_match; try discriminate.
      by injection Hmk as <-. }
    split_and!.
    + intros d Hd. apply Hsub. rewrite Hdirs. apply elem_of_union. by right.
    + intros d [Hd|Hd]%Hnew.
      * rewrite Hdirs in Hd.
        apply elem_of_union in Hd as [->%elem_of_singleton|Hd];
          [right; by left|by left].
      * right. by right.
    + by rewrite Href.
  - split_and!; [done|by left|done].
Qed.

(** [make_directories] returns [(traj_dir, True)] exactly when none of
    the four directories exists and none is refused; it has then
    created the four of them and logged nothing. *)
Theorem make_directories_succeeds_iff w rd :
  rundir (self w) = Some rd →
  ((make_directories w).1 = Ok (pjoin rd TRAJ, true)
   ↔ Forall (λ d, (d ∉ dirs (fs w)) ∧ refuses (fs w) d = false) (layout rd))
  ∧ ((make_directories w).1 = Ok (pjoin rd TRAJ, true) →
     dirs (fs (make_directories w).2) = list_to_set (layout rd) ∪ dirs (fs w)
     ∧ log (make_directories w).2 = log w).
Proof.
  intros Hrd.
  destruct (mkdirs_success (layout rd) (fs w) (layout_NoDup rd))
    as [Hiff Hdirs].
  unfold make_directories. rewrite Hrd. fold (layout rd).
  destruct (mkdirs (layout rd) (fs w)) as [fs' [e|]] eqn:Hmk; simpl in *.
  - split; [|discriminate]. rewrite <- Hiff. split; discriminate.
  - split; [by rewrite <- Hiff|]. intros _. split; [by apply Hdirs|done].
Qed.

(** Whatever it returns, [make_directories] removes no directory and
    creates none outside the layout, and it points the four directory
    attributes of the object at the layout, leaving the other
    attributes alone. *)
Theorem make_directories_effects w rd :
  rundir (self w) = Some rd →
  let w' := (make_directories w).2 in
  dirs (fs w) ⊆ dirs (fs w')
  ∧ (∀ d, d ∈ dirs (fs w') → d ∈ dirs (fs w) ∨ d ∈ layout rd)
  ∧ traj_dir (self w') = pjoin rd TRAJ
  ∧ sstate_dir (self w') = pjoin rd SSTATE
  ∧ msms_dir (self w') = pjoin rd MSMS
  ∧ figs_dir (self w') = Some (pjoin rd FIGS)
  ∧ (tpr (self w'), spt (self w'), run_id (self w'), rundir (self w'),
     _round_i (self w'))
    = (tpr (self w), spt (self w), run_id (self w), rundir (self w),
       _round_i (self w)).
Proof.
  intros Hrd.
  destruct (mkdirs_dirs (layout rd) (fs w)) as (Hsub & Hnew & _).
  unfold make_directories. rewrite Hrd. fold (layout rd).
  destruct (mkdirs (layout rd) (fs w)) as [fs' [e|]]; simpl in *;
    by split_and!.
Qed.

(** On an object as [__init__] leaves it, [plot_fn] raises
    [AttributeError]: [figs_dir] does not exist yet.  After
    [make_directories], whatever that returned, both file-name
    properties answer inside the layout. *)
Theorem plot_fn_needs_make_directories w rd :
  rundir (self w) = Some rd →
  figs_dir (self w) = None →
  let p' := self (make_directories w).2 in
  plot_fn (self w) = Err AttributeError
  ∧ plot_fn p' = Ok (pjoin (pjoin rd FIGS) (FIGROUND (_round_i (self w))))
  ∧ seed_state_fn p'
    = pjoin (pjoin rd SSTATE) (SEEDROUND (_round_i (self w) + 1)).
Proof.
  intros Hrd Hfigs. unfold plot_fn at 1. rewrite Hfigs.
  unfold make_directories. rewrite Hrd.
  destruct (mkdirs _ (fs w)) as [fs' [e|]]; simpl; by split_and!.
Qed.

End param_more.

Lemma make_directories_succeeds_iff_witness :
  ((Param.make_directories sample_world).1
   = Py.Ok (Os.pjoin "run" Param.TRAJ, true)
   ↔ Forall (λ d, (d ∉ Os.dirs (Param.fs sample_world))
                  ∧ Os.refuses (Param.fs sample_world) d = false)
       (layout "run"))
  ∧ ((Param.make_directories sample_world).1
     = Py.Ok (Os.pjoin "run" Param.TRAJ, true) →
     Os.dirs (Param.fs (Param.make_directories sample_world).2)
     = list_to_set (layout "run") ∪ Os.dirs (Param.fs sample_world)
     ∧ Param.log (Param.make_directories sample_world).2
       = Param.log sample_world).
Proof.
  apply (make_directories_succeeds_iff sample_world "run"). reflexivity.
Defined.

Lemma make_directories_effects_witness :
  let w' := (Param.make_directories sample_world).2 in
  Os.dirs (Param.fs sample_world) ⊆ Os.dirs (Param.fs w')
  ∧ (∀ d, d ∈ Os.dirs (Param.fs w') →
          d ∈ Os.dirs (Param.fs sample_world) ∨ d ∈ layout "run")
  ∧ Param.traj_dir (Param.self w') = Os.pjoin "run" Param.TRAJ
  ∧ Param.sstate_dir (Param.self w') = Os.pjoin "run" Param.SSTATE
  ∧ Param.msms_dir (Param.self w') = Os.pjoin "run" Param.MSMS
  ∧ Param.figs_dir (Param.self w') = Some (Os.pjoin "run" Param.FIGS)
  ∧ (Param.tpr (Param.self w'), Param.spt (Param.self w'),
     Param.run_id (Param.self w'), Param.rundir (Param.self w'),
     Param._round_i (Param.self w'))
    = (Param.tpr (Param.self sample_world), Param.spt (Param.self sample_world),
       Param.run_id (Param.self sample_world),
       Param.rundir (Param.self sample_world),
       Param._round_i (Param.self sample_world)).
Proof.
  apply (make_directories_effects sample_world "run"). reflexivity.
Defined.

Lemma plot_fn_needs_make_directories_witness :
  let p' := Param.self (Param.make_directories sample_world).2 in
  Param.plot_fn (Param.self sample_world) = Py.Err Py.AttributeError
  ∧ Param.plot_fn p'
    = Py.Ok (Os.pjoin (Os.pjoin "run" Param.FIGS)
               (Param.FIGROUND (Param._round_i (Param.self sample_world))))
  ∧ Param.seed_state_fn p'
    = Os.pjoin (Os.pjoin "run" Param.SSTATE)
        (Param.SEEDROUND (Param._round_i (Param.self sample_world) + 1)).
Proof.
  apply (plot_fn_needs_make_directories sample_world "run"); reflexivity.
Defined.

(** ** Round directories and round files *)
Section round_more.
Import Py Os Param.
Variable abspath : string → string.

(** A second [make_trajround] for the same round always fails: the
    first call returns the absolute round directory and creates it,
    and the second raises [OSError] on it, changing nothing. *)
Theorem make_trajround_twice w round_i d w1 :
  make_trajround abspath w round_i = (Ok d, w1) →
  d = abspath (pjoin (traj_dir (self w)) (TRAJROUND round_i))
  ∧ dirs (fs w1) = {[d]} ∪ dirs (fs w)
  ∧ _round_i (self w1) = round_i
  ∧ make_trajround abspath w1 round_i = (Err OSError, w1).
Proof.
  unfold make_trajround. simpl.
  destruct (mkdir _ (fs w)) as [fs1|e] eqn:Hmk; [|discriminate].
  intros [= <- <-]. simpl.
  pose proof (mkdir_ok _ _ _ Hmk) as Hdirs.
  split_and!; [done|done|done|].
  unfold mkdir. rewrite decide_True; [done|].
  rewrite Hdirs. apply elem_of_union. left. by apply elem_of_singleton.
Qed.

(** When [make_trajround] fails, the [OSError] is neither caught nor
    logged, and the round pointer has moved all the same: the object
    already names the seed file of the round after [round_i]. *)
Theorem make_trajround_failure_moves_pointer w round_i e w' :
  make_trajround abspath w round_i = (Err e, w') →
  e = OSError
  ∧ fs w' = fs w ∧ log w' = log w
  ∧ _round_i (self w') = round_i
  ∧ seed_state_fn (self w')
    = pjoin (sstate_dir (self w)) (SEEDROUND (round_i + 1)).
Proof.
  unfold make_trajround. simpl.
  destruct (mkdir _ (fs w)) as [fs1|e1] eqn:Hmk; [discriminate|].
  intros [= <- <-]. apply mkdir_err in Hmk as ->. by split_and!.
Qed.

End round_more.

Section names_more.
Import Py Os Param.

Lemma SEEDROUND_relative z : startswith (SEEDROUND z) "/" = false.
Proof. reflexivity. Qed.

Lemma FIGROUND_relative z : startswith (FIGROUND z) "/" = false.
Proof. reflexivity. Qed.

(** Two objects that share their directories and differ in the round
    pointer name different seed files and different plot files. *)
Theorem round_files_distinct (p q : AdaptiveParams) :
  sstate_dir p = sstate_dir q →
  figs_dir p = figs_dir q →
  _round_i p ≠ _round_i q →
  seed_state_fn p ≠ seed_state_fn q
  ∧ (is_Some (figs_dir p) → plot_fn p ≠ plot_fn q).
Proof.
  intros Hs Hf Hne. split.
  - unfold seed_state_fn. rewrite Hs.
    intros Heq%pjoin_inj; [|apply SEEDROUND_relative..].
    unfold SEEDROUND in Heq. apply String.app_inj in Heq.
    apply (inj pretty) in Heq. lia.
  - intros [d Hd]. unfold plot_fn. rewrite <- Hf, Hd.
    intros [= Heq%pjoin_inj]; [|apply FIGROUND_relative..].
    unfold FIGROUND in Heq. apply String.app_inj in Heq.
    by apply (inj pretty) in Heq.
Qed.

Lemma record_name_inj {A} (x y : A) f g names :
  record_name f x names = record_name g y names → f = g.
Proof.
  unfold record_name. intros [= Heq%app_inv_head]. congruence.
Qed.

(** [save_starting_states] writes one file per round: the name it
    hands to the writer determines the round. *)
Theorem save_starting_states_file_per_round {A} (x y : A) i j names :
  i ≠ j →
  Model.save_starting_states x i record_name names
  ≠ Model.save_starting_states y j record_name names.
Proof.
  intros Hne. unfold Model.save_starting_states.
  intros Heq%record_name_inj. apply Hne.
  apply pjoin_inj in Heq; [|reflexivity..].
  apply String.app_inj in Heq.
  apply str_app_inv_tail in Heq.
  apply (inj pretty) in Heq. lia.
Qed.

End names_more.

Section round_more_witnesses.
Import Py Os Param.

Lemma make_trajround_twice_witness :
  let w := (make_directories sample_world).2 in
  let w1 := (make_trajround sample_abspath w 0).2 in
  "/home/run/trajs/round-0"
  = sample_abspath (pjoin (traj_dir (self w)) (TRAJROUND 0))
  ∧ dirs (fs w1) = {["/home/run/trajs/round-0"]} ∪ dirs (fs w)
  ∧ _round_i (self w1) = 0%Z
  ∧ make_trajround sample_abspath w1 0 = (Err OSError, w1).
Proof.
  apply (make_trajround_twice sample_abspath
           (make_directories sample_world).2 0%Z "/home/run/trajs/round-0"
           (make_trajround sample_abspath (make_directories sample_world).2 0).2).
  by vm_compute.
Defined.

Lemma make_trajround_failure_moves_pointer_witness :
  let w0 := (make_trajround sample_abspath (make_directories sample_world).2 0).2 in
  let w := (make_trajround sample_abspath w0 1).2 in
  let w' := (make_trajround sample_abspath w 0).2 in
  OSError = OSError
  ∧ fs w' = fs w ∧ log w' = log w
  ∧ _round_i (self w') = 0%Z
  ∧ seed_state_fn (self w')
    = pjoin (sstate_dir (self w)) (SEEDROUND (0 + 1)).
Proof.
  apply (make_trajround_failure_moves_pointer sample_abspath
           (make_trajround sample_abspath
              (make_trajround sample_abspath
                 (make_directories sample_world).2 0).2 1).2
           0%Z OSError).
  by vm_compute.
Defined.

Lemma round_files_distinct_witness :
  let p := self sample_world in
  let q := self (make_trajround sample_abspath sample_world 3).2 in
  seed_state_fn p ≠ seed_state_fn q
  ∧ (is_Some (figs_dir p) → plot_fn p ≠ plot_fn q).
Proof.
  apply (round_files_distinct (self sample_world)
           (self (make_trajround sample_abspath sample_world 3).2));
    [reflexivity|reflexivity|compute_done].
Defined.

Lemma save_starting_states_file_per_round_witness :
  Model.save_starting_states [2; 0] 0 record_name []
  ≠ Model.save_starting_states [1] 1 record_name [].
Proof.
  apply (save_starting_states_file_per_round [2; 0] [1] 0%Z 1%Z []).
  compute_done.
Defined.

End round_more_witnesses.

(** ** More on trajectory loading *)
Section loading_more.
Import Py Os Model.

Lemma substring_app_skip (p s : string) n m :
  String.substring (String.length p + n) m (p +:+ s) = String.substring n m s.
Proof. induction p as [|c p IH]; [done|]. rewrite str_app_cons. exact IH. Qed.

(** A name keeps its ending when something is put in front of it. *)
Lemma endswith_app p s suf :
  endswith s suf = true → endswith (p +:+ s) suf = true.
Proof.
  unfold endswith. rewrite str_length_app.
  destruct (Nat.leb_spec (String.length suf) (String.length s)) as [Hle|];
    [|done].
  intros Heq.
  destruct (Nat.leb_spec (String.length suf)
              (String.length p + String.length s)) as [_|Hlt]; [|lia].
  replace (String.length p + String.length s - String.length suf)
    with (String.length p + (String.length s - String.length suf)) by lia.
  by rewrite substring_app_skip.
Qed.

Lemma endswith_pjoin d s suf :
  endswith s suf = true → endswith (pjoin d s) suf = true.
Proof.
  intros Hs. unfold pjoin. repeat case_match; [done|by apply endswith_app|].
  by apply endswith_app, (endswith_app "/").
Qed.

Lemma mapM_ext {A B} (f g : A → result B) xs :
  Forall (λ x, f x = g x) xs → mapM f xs = mapM g xs.
Proof.
  induction 1 as [|x xs Hx _ IH]; simpl; [done|]. by rewrite Hx, IH.
Qed.

Section with_fs.
Context {traj : Type}.
Variable listdir : string → result (list string).
Variable len : traj → Z.

(** Only files whose name ends in [.h5] are handed to the loader: two
    loaders that agree on such names give the same result, whatever
    else the round directories hold. *)
Theorem load_trajectories_only_h5 (load1 load2 : string → result traj) round_i :
  (∀ fn, endswith fn ".h5" = true → load1 fn = load2 fn) →
  load_trajectories listdir load1 len round_i
  = load_trajectories listdir load2 len round_i.
Proof.
  intros Hagree.
  assert (∀ c, load_round listdir load1 c = load_round listdir load2 c) as Hround.
  { intros c. unfold load_round, mbind, result_bind.
    destruct (listdir _) as [names|e]; simpl; [|done].
    apply mapM_ext, Forall_forall. intros s Hs.
    apply list_elem_of_filter in Hs as [Hs _].
    by apply Hagree, endswith_pjoin. }
  assert (∀ rounds acc, load_rounds listdir load1 rounds acc
                        = load_rounds listdir load2 rounds acc) as Hrounds.
  { induction rounds as [|c rounds IH]; intros acc; simpl; [done|].
    rewrite Hround. unfold mbind, result_bind.
    destruct (load_round listdir load2 c); simpl; [apply IH|done]. }
  unfold load_trajectories. by rewrite Hrounds.
Qed.

(** The loop of [load_trajectories] amounts to loading the round
    directories [0 .. round_i] one after the other, stopping at the
    first failure, and joining what they hold; without a trajectory in
    any of them, and so for every negative round, the read of
    [trajs[0]] raises [IndexError]. *)
Theorem load_trajectories_unfolded (load_func : string → result traj) round_i :
  load_trajectories listdir load_func len round_i
  = (per_round ← mapM (load_round listdir load_func) (range (round_i + 1));
     match concat per_round with
     | [] => Err IndexError
     | t0 :: _ => Ok ((len t0 * (round_i + 1))%Z, concat per_round)
     end)
  ∧ ((round_i < 0)%Z →
     load_trajectories listdir load_func len round_i = Err IndexError).
Proof.
  assert (∀ rounds acc,
            load_rounds listdir load_func rounds acc
            = (per_round ← mapM (load_round listdir load_func) rounds;
               Ok (acc ++ concat per_round))) as Hrounds.
  { induction rounds as [|c rounds IH]; intros acc; simpl.
    { by rewrite app_nil_r. }
    unfold mbind, result_bind in *.
    destruct (load_round listdir load_func c) as [new|e]; simpl; [|done].
    rewrite IH.
    destruct (mapM _ rounds) as [per|e]; simpl; [|done].
    by rewrite app_assoc. }
  split.
  - unfold load_trajectories. rewrite Hrounds.
    unfold mbind, result_bind.
    by destruct (mapM _ (range (round_i + 1))).
  - intros Hneg. unfold load_trajectories, range.
    by replace (Z.to_nat (round_i + 1)) with 0 by lia.
Qed.

End with_fs.

(** [load_trajectories_percent] reads the trajectories of round 0, the
    very list [load_trajectories] returns for round 0, and cuts each
    to a prefix: of [endstep] frames, or the whole trajectory if it is
    shorter, when [endstep] is not negative. *)
Theorem load_trajectories_percent_prefixes {frame}
    (listdir : string → result (list string))
    (load_func : string → result (list frame)) (scale : Z → Z)
    endstep trajs :
  load_trajectories_percent listdir load_func scale = Ok (endstep, trajs) →
  ∃ t0 rest,
    load_trajectories listdir load_func (λ t, Z.of_nat (length t)) 0
    = Ok ((Z.of_nat (length t0) * 1)%Z, t0 :: rest)
    ∧ endstep = scale (Z.of_nat (length t0))
    ∧ Forall2 (λ t l, t `prefix_of` l
                      ∧ ((0 ≤ endstep)%Z →
                         length t = Z.to_nat endstep `min` length l))
        trajs (t0 :: rest).
Proof.
  unfold load_trajectories_percent, load_trajectories, mbind, result_bind.
  simpl. unfold mbind, result_bind.
  destruct (load_round listdir load_func 0) as [[|t0 rest]|e]; simpl;
    [discriminate| |discriminate].
  intros [= <- <-]. exists t0, rest. split_and!; [done|done|].
  generalize (scale (Z.of_nat (length t0))). intros e.
  change (slice_to t0 e :: map (λ traj, slice_to traj e) rest)
    with (map (λ traj : list frame, slice_to traj e) (t0 :: rest)).
  generalize (t0 :: rest). intros ls.
  induction ls as [|l ls IH]; simpl; constructor; [|done].
  unfold slice_to. destruct (Z.ltb_spec e 0).
  - split; [apply prefix_take|lia].
  - split; [apply prefix_take|]. intros _. by rewrite length_take.
Qed.

End loading_more.

Lemma load_trajectories_only_h5_witness :
  Model.load_trajectories sample_listdir sample_load sample_len 1
  = Model.load_trajectories sample_listdir sample_load_strict sample_len 1.
Proof.
  apply (load_trajectories_only_h5 sample_listdir sample_len
           sample_load sample_load_strict 1%Z).
  intros fn Hfn. unfold sample_load_strict. by rewrite Hfn.
Defined.

Lemma load_trajectories_percent_prefixes_witness :
  ∃ t0 rest,
    Model.load_trajectories sample_listdir sample_load
      (λ t, Z.of_nat (length t)) 0
    = Py.Ok ((Z.of_nat (length t0) * 1)%Z, t0 :: rest)
    ∧ 2%Z = (λ n, n - 1)%Z (Z.of_nat (length t0))
    ∧ Forall2 (λ t l, t `prefix_of` l
                      ∧ ((0 ≤ 2)%Z → length t = Z.to_nat 2 `min` length l))
        [[0; 1]] (t0 :: rest).
Proof.
  apply (load_trajectories_percent_prefixes sample_listdir sample_load
           (λ n, n - 1)%Z 2%Z [[0; 1]]).
  reflexivity.
Defined.

(** ** The round directories of the two modules *)
Section round_directories.
Import Py Os Param.

Lemma pretty_Z_of_nat (c : nat) : pretty (Z.of_nat c) = pretty c.
Proof. by destruct c. Qed.

(** For a run laid out in the working directory, the directory that
    [make_trajround] creates for round [c] is the absolute path of the
    directory [load_trajectories] lists for that round. *)
Theorem trajround_is_loader_directory
    (abspath : string → string) w0 (c : nat) d w1 :
  rundir (self w0) = Some "" →
  make_trajround abspath (make_directories w0).2 (Z.of_nat c) = (Ok d, w1) →
  d = abspath (pjoin "trajs" (Model.round_name c)).
Proof.
  intros Hrd. unfold make_trajround, make_directories. rewrite Hrd.
  destruct (mkdirs _ (fs w0)) as [fs' [e|]]; simpl;
    (destruct (mkdir _ fs') as [fs1|e1]; [|discriminate]);
    intros [= <- _];
    unfold TRAJROUND, Model.round_name; by rewrite pretty_Z_of_nat.
Qed.

Lemma trajround_is_loader_directory_witness :
  "/home/trajs/round-1"
  = sample_abspath (pjoin "trajs" (Model.round_name 1)).
Proof.
  apply (trajround_is_loader_directory sample_abspath sample_world_here 1
           "/home/trajs/round-1"
           (make_trajround sample_abspath
              (make_directories sample_world_here).2 1).2);
    [reflexivity|by vm_compute].
Defined.

End round_directories.
